(** * game.js: generalized rock-paper-scissors with an HMAC commitment

    A shallow embedding of [src/game.js] and the properties of its
    move comparator, its help table, its round controller and its
    start-up validation.

    Conventions of the embedding
    - a JavaScript string is a [string]; a value that is a string or
      [undefined] is an [option string] with [None] for [undefined];
    - array indices and lengths are integers of [Z]; [Array.indexOf]
      answers [-1] for an absent element, as in JavaScript;
    - [console.log] appends one line to an output log, a [list string];
    - what the Node runtime supplies ([Math.random], [crypto.randomBytes],
      the HMAC-SHA256 digest, [Number]) is a record [Host] of oracles;
      the program state counts how many random numbers and keys were
      drawn so far;
    - a thrown exception is the result [None]. *)

From Stdlib Require Import ZArith List String Ascii Bool Lia QArith Qround.
From Stdlib Require Import DecimalString ZifyBool.
Import ListNotations.

Local Open Scope string_scope.
Local Open Scope Z_scope.

(** ** JavaScript array primitives on lists of strings *)

Module JsArray.

(** [arr.length]. *)
Definition length (arr : list string) : Z := Z.of_nat (List.length arr).

(** [arr.indexOf(x)] scanning from position [k]: the first position whose
    element is strictly equal to [x], or [-1]. *)
Fixpoint indexOf_from (arr : list string) (x : string) (k : Z) : Z :=
  match arr with
  | [] => -1
  | y :: rest => if String.eqb y x then k else indexOf_from rest x (k + 1)
  end.

Definition indexOf (arr : list string) (x : string) : Z :=
  indexOf_from arr x 0.

(** [arr.includes(v)] where [v] may be [undefined]; no element of an
    array of strings is [undefined]. *)
Definition includes (arr : list string) (v : option string) : bool :=
  match v with
  | None => false
  | Some x => existsb (fun y => String.eqb y x) arr
  end.

(** [arr[i]] for an integer [i]: [undefined] outside [0 .. length-1]. *)
Definition get (arr : list string) (i : Z) : option string :=
  if i <? 0 then None else nth_error arr (Z.to_nat i).

(** [arr[q]] for a number [q]: a number that is not an integer names no
    element. *)
Definition get_num (arr : list string) (q : Q) : option string :=
  if Qeq_bool q (inject_Z (Qfloor q)) then get arr (Qfloor q) else None.

(** [new Set(arr)] keeps the first occurrence of every element, in
    insertion order; [set_size] is its [.size]. *)
Fixpoint set_add (s : list string) (x : string) : list string :=
  match s with
  | [] => [x]
  | y :: rest => if String.eqb y x then s else y :: set_add rest x
  end.

Definition new_Set (arr : list string) : list string :=
  fold_left set_add arr [].

Definition set_size (arr : list string) : Z := length (new_Set arr).

End JsArray.

(** ** The runtime: oracles, program state, and the monad of effects *)

(** What the Node runtime supplies.  [Math_random k] is the value of the
    [k]-th call of [Math.random()], an exact rational (the real one is a
    double in the same range); [randomBytes_hex k] is the [k]-th
    [crypto.randomBytes(32).toString('hex')]; [hmac_sha256_hex key msg] is
    [createHmac('sha256', key).update(msg).digest('hex')];
    [js_Number s] is [Number(s)] with [None] for [NaN] and the two
    infinities, which the program treats alike. *)
Record Host : Type := {
  Math_random : nat -> Q;
  randomBytes_hex : nat -> string;
  hmac_sha256_hex : string -> string -> string;
  js_Number : string -> option Q
}.

(** How much of each random source has been consumed. *)
Record World : Type := {
  random_calls : nat;
  key_calls : nat
}.

(** A computation reads and advances the [World], may throw ([None]),
    and logs lines to the console. *)
Definition M (A : Type) : Type := World -> option (A * World * list string).

Definition ret {A} (a : A) : M A := fun w => Some (a, w, []).

Definition bind {A B} (m : M A) (f : A -> M B) : M B :=
  fun w =>
    match m w with
    | None => None
    | Some (a, w1, out1) =>
        match f a w1 with
        | None => None
        | Some (b, w2, out2) => Some (b, w2, (out1 ++ out2)%list)
        end
    end.

Definition throw {A} : M A := fun _ => None.

Definition console_log (line : string) : M unit :=
  fun w => Some (tt, w, [line]).

Notation "x <- m ;; k" := (bind m (fun x => k))
  (at level 61, m at next level, right associativity).
Notation "m ;;; k" := (bind m (fun _ => k))
  (at level 61, right associativity).

(** [arr.forEach(f)] and the counted [for] loops, for a body that only
    has effects. *)
Fixpoint forEach {A} (f : A -> M unit) (l : list A) : M unit :=
  match l with
  | [] => ret tt
  | x :: rest => f x ;;; forEach f rest
  end.

(** The line feed, written [\n] in the source. *)
Definition LF : string := String (ascii_of_nat 10) EmptyString.

(** A number in a template literal: its decimal digits. *)
Definition string_of_nat (n : nat) : string :=
  DecimalString.NilZero.string_of_uint (Nat.to_uint n).

(** [k] spaces. *)
Fixpoint repeat_space (k : nat) : string :=
  match k with
  | O => EmptyString
  | S k' => String " "%char (repeat_space k')
  end.

(** [' '.repeat(count)] for an integer [count]: a negative count throws
    a [RangeError]. *)
Definition js_repeat_space (count : Z) : option string :=
  if count <? 0 then None else Some (repeat_space (Z.to_nat count)).

(** The results of a loop whose body may throw: all of them, or the
    throw. *)
Fixpoint all_some {A} (l : list (option A)) : option (list A) :=
  match l with
  | [] => Some []
  | None :: _ => None
  | Some x :: rest =>
      match all_some rest with
      | Some xs => Some (x :: xs)
      | None => None
      end
  end.

(** ** class MoveRules *)

Module MoveRules.

(** [determineWinner(userMove, computerMove)] of a [MoveRules] built on
    [moves].  [Math.floor((n - 1) / 2)] is [Z.div], which rounds down
    also at [n = 0]; the JavaScript [%] is the truncating [Z.rem].  With
    [n = 0] the remainder would be [NaN], but then [index + half] is
    [-2] and the conjunct before it already fails. *)
Definition determineWinner (moves : list string)
    (userMove computerMove : string) : string :=
  let half := (JsArray.length moves - 1) / 2 in
  let index := JsArray.indexOf moves userMove in
  let moveIndex := JsArray.indexOf moves computerMove in
  if String.eqb userMove computerMove then "Draw"
  else if ((moveIndex >=? index + 1) && (moveIndex <=? index + half))
          || ((index + half >=? JsArray.length moves)
              && (moveIndex <=? Z.rem (index + half) (JsArray.length moves)))
  then "Computer wins!"
  else "You win!".

End MoveRules.

(** ** class HelpTableGenerator *)

Module HelpTableGenerator.

(** [determineResult(move1, move2)].  Here [half] is [(n - 1) / 2]
    without [Math.floor], a half-integer when [n] is even.  Every
    quantity compared with it is kept doubled, which is exact:
    [m <= i + half] is [2m <= 2i + (n-1)], [i + half >= n] is
    [2i + (n-1) >= 2n], and twice [(i + half) % n] is
    [(2i + (n-1)) % 2n]. *)
Definition determineResult (moves : list string)
    (move1 move2 : string) : string :=
  let n := JsArray.length moves in
  let half2 := n - 1 in
  let index := JsArray.indexOf moves move1 in
  let moveIndex := JsArray.indexOf moves move2 in
  if String.eqb move1 move2 then "Draw"
  else if ((moveIndex >=? index + 1) && (2 * moveIndex <=? 2 * index + half2))
          || ((2 * index + half2 >=? 2 * n)
              && (2 * moveIndex <=? Z.rem (2 * index + half2) (2 * n)))
  then "Lose"
  else "Win".

(** [generateHelpTable(moves)]: the header row, then one row per move
    holding the move and its result against every move. *)
Definition generateHelpTable (this_moves moves : list string)
    : list (list string) :=
  ("PC Moves" :: moves)
  :: map (fun mi => mi :: map (fun mj => determineResult this_moves mi mj) moves)
         moves.

(** [padCell(cell, maxLength)], where [maxLength] may be [undefined]
    (an index past the end of [maxLengths]).  [paddingLength] is
    [maxLength - cell.length]; [Math.floor] of its half is [Z.div], and
    [Math.ceil] of its half is the negated [Z.div] of its opposite.  A
    negative [paddingLength] makes the first [repeat] throw.  With
    [maxLength] undefined the padding is [NaN], [repeat(NaN)] is the empty
    string and the cell comes back as it is.  [String.length] counts the
    characters of a string of one-unit characters, as [.length] does. *)
Definition padCell (cell : string) (maxLength : option nat) : option string :=
  match maxLength with
  | None => Some cell
  | Some m =>
      let paddingLength := Z.of_nat m - Z.of_nat (String.length cell) in
      match js_repeat_space (paddingLength / 2) with
      | None => None
      | Some leftPadding =>
          match js_repeat_space (- ((- paddingLength) / 2)) with
          | None => None
          | Some rightPadding => Some (leftPadding ++ cell ++ rightPadding)
          end
      end
  end.

(** The inner loop of [calculateColumnMaxLengths] for column [i]:
    [table[j][i].length] throws a [TypeError] when row [j] has no cell
    [i]. *)
Definition columnMax (table : list (list string)) (i : nat) : option nat :=
  fold_left (fun acc row =>
               match acc with
               | None => None
               | Some maxLength =>
                   match nth_error row i with
                   | None => None
                   | Some cell =>
                       Some (if (maxLength <? String.length cell)%nat
                             then String.length cell else maxLength)
                   end
               end)
            table (Some O).

(** [calculateColumnMaxLengths(table)]: one maximum per column of the
    first row, over all rows.  [table[0].length] throws a [TypeError] on
    the empty table. *)
Definition calculateColumnMaxLengths (table : list (list string))
    : option (list nat) :=
  match table with
  | [] => None
  | first :: _ =>
      all_some (map (columnMax table) (seq 0 (List.length first)))
  end.

(** The string that [printTable] builds for one row; [maxLengths[j]] is
    [undefined] past the end of [maxLengths]. *)
Definition rowString (maxLengths : list nat) (row : list string)
    : option string :=
  fold_left (fun acc jc =>
               match acc with
               | None => None
               | Some rowStr =>
                   match padCell (snd jc) (nth_error maxLengths (fst jc)) with
                   | None => None
                   | Some paddedCell =>
                       Some (rowStr ++ " " ++ paddedCell ++ " |")
                   end
               end)
            (combine (seq 0 (List.length row)) row) (Some "|").

(** [printTable(table)]: the column maxima first, then one console line
    per row. *)
Definition printTable (table : list (list string)) : M unit :=
  match calculateColumnMaxLengths table with
  | None => throw
  | Some maxLengths =>
      forEach (fun row =>
                 match rowString maxLengths row with
                 | None => throw
                 | Some rowStr => console_log rowStr
                 end)
              table
  end.

End HelpTableGenerator.

(** ** classes KeyGenerator and HmacGenerator *)

Module KeyGenerator.

(** [generateKey()]: the next 32 random bytes, in hexadecimal. *)
Definition generateKey (H : Host) : M string :=
  fun w => Some (randomBytes_hex H (key_calls w),
                 {| random_calls := random_calls w;
                    key_calls := S (key_calls w) |},
                 []).

End KeyGenerator.

Module HmacGenerator.

(** [generateHmac(key, move)].  [hmac.update(undefined)] throws a
    [TypeError]. *)
Definition generateHmac (H : Host) (key : string) (move : option string)
    : M string :=
  match move with
  | Some m => ret (hmac_sha256_hex H key m)
  | None => throw
  end.

End HmacGenerator.

(** [Math.random()]: the next random number. *)
Definition math_random (H : Host) : M Q :=
  fun w => Some (Math_random H (random_calls w),
                 {| random_calls := S (random_calls w);
                    key_calls := key_calls w |},
                 []).

(** ** class Game *)

Module Game.

(** The fields of a [Game] that change or are read; the helper objects
    ([moveRules], [helpTableGenerator]) hold the same [moves]. *)
Record t : Type := {
  moves : list string;
  hmacKey : string;
  computerMove : option string
}.

(** [this.moves[Math.floor(Math.random() * this.moves.length)]].  The
    source floors the double nearest to the product, the embedding floors
    the exact product.  For a number in [0, 1) both are positions of the
    array, but they need not be the same position; the statements about
    the move drawn say only that it is a member of the moves. *)
Definition randomMove (H : Host) (mvs : list string) : M (option string) :=
  r <- math_random H ;;
  ret (JsArray.get mvs (Qfloor (r * inject_Z (JsArray.length mvs)))).

(** [new Game(moves)]: the key is drawn first, then the computer's
    move. *)
Definition constructor (H : Host) (mvs : list string) : M t :=
  key <- KeyGenerator.generateKey H ;;
  cm <- randomMove H mvs ;;
  ret {| moves := mvs; hmacKey := key; computerMove := cm |}.

Definition generateHmac (H : Host) (this : t) (move : option string)
    : M string :=
  HmacGenerator.generateHmac H (hmacKey this) move.

Definition isMoveValid (this : t) (move : option string) : bool :=
  JsArray.includes (moves this) move.

(** [showMenu()]; the argument that [play] passes is ignored. *)
Definition showMenu (H : Host) (this : t) : M unit :=
  h <- generateHmac H this (computerMove this) ;;
  console_log ("HMAC: " ++ h) ;;;
  console_log "Available moves:" ;;;
  forEach (fun im => console_log (string_of_nat (fst im + 1) ++ " - " ++ snd im))
          (combine (seq 0 (List.length (moves this))) (moves this)) ;;;
  console_log "0 - exit" ;;;
  console_log "? - help".

Definition printHelp (this : t) : M unit :=
  console_log "Game Rules:" ;;;
  console_log "Each move beats the half of the moves coming after it in a circular manner." ;;;
  console_log "To play the game, enter the number corresponding to your move." ;;;
  console_log "Enter 0 to exit the game." ;;;
  console_log "Enter ? to display the available moves and rules." ;;;
  console_log (LF ++ "Help table:") ;;;
  HelpTableGenerator.printTable
    (HelpTableGenerator.generateHelpTable (moves this) (moves this)).

(** [play(userMove)], answering the updated [this].  The computer's move
    is drawn anew before anything else.  Past the validity test
    [userMove] is a member of [moves], and past [generateHmac] the
    computer's move is a string, so the last arm is never taken. *)
Definition play (H : Host) (this0 : t) (userMove : option string) : M t :=
  cm <- randomMove H (moves this0) ;;
  let this := {| moves := moves this0; hmacKey := hmacKey this0;
                 computerMove := cm |} in
  hmac <- generateHmac H this (computerMove this) ;;
  if negb (isMoveValid this userMove) then
    console_log ("Invalid move. Please try again." ++ LF) ;;;
    showMenu H this ;;;
    ret this
  else
    match userMove, computerMove this with
    | Some um, Some c =>
        let result := MoveRules.determineWinner (moves this) um c in
        console_log ("HMAC: " ++ hmac) ;;;
        console_log ("Your move: " ++ um) ;;;
        console_log ("Computer move: " ++ c) ;;;
        console_log result ;;;
        console_log ("HMAC key: " ++ hmacKey this ++ LF) ;;;
        showMenu H this ;;;
        ret this
    | _, _ => throw
    end.

End Game.

(** ** The module entry: validation of the command line and the prompt loop *)

(** The test of line 186 on [moves = process.argv.slice(2)]. *)
Definition invalid_moves (mvs : list string) : bool :=
  (JsArray.length mvs <? 3)
  || negb (Z.rem (JsArray.length mvs) 2 =? 1)
  || negb (JsArray.set_size mvs =? JsArray.length mvs).

(** The synchronous part of the script: either the two lines of the
    configuration error and no game, or a new [Game] and its first
    menu. *)
Definition main (H : Host) (argv : list string) : M (option Game.t) :=
  let mvs := skipn 2 argv in
  if invalid_moves mvs then
    console_log "Invalid moves. Please provide an odd number of unique moves." ;;;
    console_log "Example: node game.js rock paper scissors" ;;;
    ret None
  else
    game <- Game.constructor H mvs ;;
    Game.showMenu H game ;;;
    ret (Some game).

(** The callback of [rl.question] on one line of input; the boolean tells
    whether [getUserMove] asks again.  [moveIndex] is [Number(answer) - 1];
    a [NaN] or an infinity fails the range test. *)
Definition on_answer (H : Host) (mvs : list string) (game : Game.t)
    (answer : string) : M (Game.t * bool) :=
  if String.eqb answer "0" then ret (game, false)
  else if String.eqb answer "?" then
    Game.printHelp game ;;; ret (game, true)
  else
    let rejected :=
      console_log ("Invalid move. Please try again." ++ LF) ;;;
      Game.showMenu H game ;;;
      ret (game, true) in
    match js_Number H answer with
    | Some num =>
        let moveIndex := (num - 1)%Q in
        if Qle_bool 0 moveIndex
           && negb (Qle_bool (inject_Z (JsArray.length mvs)) moveIndex)
        then
          game' <- Game.play H game (JsArray.get_num mvs moveIndex) ;;
          ret (game', true)
        else rejected
    | None => rejected
    end.

(** [getUserMove()] over the lines that standard input delivers; it stops
    at the answer [0] or when the input ends.  Only [console.log] lines
    are recorded, not the prompt. *)
Fixpoint getUserMove (H : Host) (mvs : list string) (game : Game.t)
    (answers : list string) : M Game.t :=
  match answers with
  | [] => ret game
  | answer :: rest =>
      gb <- on_answer H mvs game answer ;;
      if snd gb then getUserMove H mvs (fst gb) rest else ret (fst gb)
  end.

(** The whole script on a command line and the lines typed after it. *)
Definition script (H : Host) (argv answers : list string)
    : M (option Game.t) :=
  started <- main H argv ;;
  match started with
  | None => ret None
  | Some game =>
      game' <- getUserMove H (skipn 2 argv) game answers ;;
      ret (Some game')
  end.

Definition world0 : World := {| random_calls := 0; key_calls := 0 |}.

(** ** Notions used by the statements *)

(** A valid MoveSet: distinct moves, odd length, at least three. *)
Definition valid_moveset (mvs : list string) : Prop :=
  NoDup mvs /\ Z.odd (JsArray.length mvs) = true /\ 3 <= JsArray.length mvs.

(** [Math.random()] answers a number in [0, 1). *)
Definition random_in_range (H : Host) : Prop :=
  forall k, (0 <= Math_random H k)%Q /\ (Math_random H k < 1)%Q.

(** How many of the members of [mvs] other than [a] get the verdict
    [verdict] when [a] plays against them. *)
Definition count_verdict (mvs : list string) (a verdict : string) : nat :=
  List.length
    (filter (fun x => negb (String.eqb x a)
                      && String.eqb (MoveRules.determineWinner mvs a x) verdict)
            mvs).

(** The commitment that [showMenu] prints for a game. *)
Definition shown_commitment (H : Host) (g : Game.t) : option string :=
  match Game.computerMove g with
  | Some c => Some (hmac_sha256_hex H (Game.hmacKey g) c)
  | None => None
  end.

(** The test of [determineWinner] for "the computer wins", on the two
    positions. *)
Definition in_window (n half index moveIndex : Z) : bool :=
  ((moveIndex >=? index + 1) && (moveIndex <=? index + half))
  || ((index + half >=? n) && (moveIndex <=? Z.rem (index + half) n)).

(** The lines of the menu below its HMAC line. *)
Definition menu_lines (mvs : list string) : list string :=
  ("Available moves:"
   :: map (fun im => string_of_nat (fst im + 1) ++ " - " ++ snd im)
          (combine (seq 0 (List.length mvs)) mvs))
  ++ ["0 - exit"; "? - help"].

(** The state of the runtime after one more call of [Math.random]. *)
Definition after_random (w : World) : World :=
  {| random_calls := S (random_calls w); key_calls := key_calls w |}.

(** The game after the computer's move was replaced by [c]. *)
Definition with_move (g : Game.t) (c : string) : Game.t :=
  {| Game.moves := Game.moves g; Game.hmacKey := Game.hmacKey g;
     Game.computerMove := Some c |}.

(** The check of an external verifier: recompute the HMAC from the
    disclosed key and move and compare it with the commitment shown. *)
Definition verifier_accepts (H : Host) (shown key move : string) : bool :=
  String.eqb (hmac_sha256_hex H key move) shown.

(** [half] as a count. *)
Definition half_of (mvs : list string) : nat :=
  Z.to_nat ((JsArray.length mvs - 1) / 2).

(** Among [n] positions on a circle, the [h] positions before [i]. *)
Definition beaten_positions (n h i k : nat) : bool :=
  (((i - h <=? k) && (k <? i)) || ((n + i - h <=? k) && (k <? n)))%nat.

(** Among [n] positions on a circle, the [h] positions after [i]. *)
Definition beating_positions (n h i k : nat) : bool :=
  (((i + 1 <=? k) && (k <? i + h + 1))
   || ((0 <=? k) && (k <? i + h + 1 - n)))%nat.

(** [table[r][c]]. *)
Definition table_cell (table : list (list string)) (r c : nat)
    : option string :=
  match nth_error table r with
  | Some row => nth_error row c
  | None => None
  end.

(** Every row is as long as the first one. *)
Definition rectangular (table : list (list string)) : Prop :=
  forall row, In row table -> List.length row = List.length (hd [] table).

(** The computer's move of a game is one of its moves. *)
Definition move_chosen (g : Game.t) : Prop :=
  exists c, Game.computerMove g = Some c /\ In c (Game.moves g).

(** [p] is [cell] centred in [width] characters: spaces on both sides,
    on the right as many as on the left or one more. *)
Definition centred (cell : string) (width : nat) (p : string) : Prop :=
  exists l r : nat,
    p = repeat_space l ++ cell ++ repeat_space r /\
    (l + String.length cell + r = width)%nat /\
    (l <= r <= l + 1)%nat.

(** A bar, then for every padded cell a space, the cell, a space and a
    bar. *)
Definition join_cells (padded : list string) : string :=
  fold_left (fun rowStr p => rowStr ++ " " ++ p ++ " |") padded "|".

(** [line] shows [row] in the columns of widths [widths]: one padded cell
    per column, each the cell of the row centred in exactly the width of
    its column; so the bars of all such lines stand at the same
    positions. *)
Definition aligned_line (widths : list nat) (row : list string)
    (line : string) : Prop :=
  List.length row = List.length widths /\
  exists padded,
    Forall2 (fun cw p => centred (fst cw) (snd cw) p)
            (combine row widths) padded /\
    line = join_cells padded.

(** The inner loop of [columnMax] from any starting value. *)
Definition columnMax_from (i : nat) (rows : list (list string))
    (acc : option nat) : option nat :=
  fold_left (fun acc row =>
               match acc with
               | None => None
               | Some maxLength =>
                   match nth_error row i with
                   | None => None
                   | Some cell =>
                       Some (if (maxLength <? String.length cell)%nat
                             then String.length cell else maxLength)
                   end
               end)
            rows acc.

(** The loop of [rowString] from column [s] on, with the string built so
    far. *)
Definition rowString_from (maxLengths : list nat) (s : nat)
    (row : list string) (acc : option string) : option string :=
  fold_left (fun acc jc =>
               match acc with
               | None => None
               | Some rowStr =>
                   match HelpTableGenerator.padCell
                           (snd jc) (nth_error maxLengths (fst jc)) with
                   | None => None
                   | Some paddedCell =>
                       Some (rowStr ++ " " ++ paddedCell ++ " |")
                   end
               end)
            (combine (seq s (List.length row)) row) acc.

(** Some row of the table is shorter than its first row. *)
Definition has_short_row (table : list (list string)) : Prop :=
  exists row, In row table /\
              (List.length row < List.length (hd [] table))%nat.

(** What the prompt loop does with an answer it turns away itself. *)
Definition loop_rejects (H : Host) (game : Game.t) : M (Game.t * bool) :=
  console_log ("Invalid move. Please try again." ++ LF) ;;;
  Game.showMenu H game ;;;
  ret (game, true).

(** What the prompt loop does after handing [u] to [play]. *)
Definition loop_plays (H : Host) (game : Game.t) (u : option string)
    : M (Game.t * bool) :=
  game' <- Game.play H game u ;;
  ret (game', true).

(** ** Concrete runtimes for the examples *)

Definition digit_of (c : ascii) : option Z :=
  let n := nat_of_ascii c in
  if ((48 <=? n) && (n <=? 57))%nat then Some (Z.of_nat n - 48) else None.

(** Digits with at most one decimal point, read left to right; [scale] is
    the power of ten passed since the point. *)
Fixpoint decimal (s : string) (acc : Z) (scale : option positive)
    : option Q :=
  match s with
  | EmptyString =>
      Some (acc # match scale with Some d => d | None => 1 end)
  | String c rest =>
      if Ascii.eqb c "."%char then
        match scale with
        | None => decimal rest acc (Some 1%positive)
        | Some _ => None
        end
      else
        match digit_of c with
        | Some d =>
            decimal rest (10 * acc + d)
                    (option_map (fun p => (10 * p)%positive) scale)
        | None => None
        end
  end.

(** [Number] on the unsigned decimal numerals, which is all the examples
    type; anything else is [NaN] here. *)
Definition decimal_Number (s : string) : option Q :=
  if String.eqb s "." then None else decimal s 0 None.

Definition demo_key (k : nat) : string :=
  match k with
  | O => "9f2c41d07ab35e6681f0c2d4b79a1e53c08d6f24e1b7a9350246fd8ce13a7b90"
  | _ => "17e4b8a60c93d25f7a1e448bd0c6f3925be81d07a4c63f19e2850b7dc4a961f3"
  end.

(** A runtime whose first random number picks position 0 and whose later
    ones pick the middle position, for any HMAC function [hm]. *)
Definition demo_host (hm : string -> string -> string) : Host :=
  {| Math_random := fun k => match k with O => 0%Q | _ => (1 # 2)%Q end;
     randomBytes_hex := demo_key;
     hmac_sha256_hex := hm;
     js_Number := decimal_Number |}.

(** A stand-in keyed digest that is injective in the message. *)
Definition tagged (key msg : string) : string := key ++ ":" ++ msg.

Definition node_rps : list string :=
  ["node"; "game.js"; "rock"; "paper"; "scissors"].

Definition rps : list string := ["rock"; "paper"; "scissors"].
Definition rpsls : list string := ["rock"; "spock"; "paper"; "lizard"; "scissors"].

(** The game that [main] builds on [rock paper scissors] under
    [demo_host]: the first key, and the move at position 0. *)
Definition demo_game : Game.t :=
  {| Game.moves := rps; Game.hmacKey := demo_key 0;
     Game.computerMove := Some "rock" |}.

Definition demo_world : World := {| random_calls := 1; key_calls := 1 |}.

(** * Properties *)

(** ** Arithmetic of the circular window *)

Section Window.

Variables n half : Z.
Hypothesis n_pos : 0 < n.
Hypothesis half_lo : 0 <= half.
Hypothesis half_hi : half < n.

Lemma rem_wrap x : n <= x < 2 * n -> Z.rem x n = x - n.
Proof using n_pos.
  intros Hx. rewrite Z.rem_mod_nonneg by lia.
  symmetry. apply Z.mod_unique with (q := 1); lia.
Qed.

Lemma mod_below x : - n <= x < 0 -> x mod n = x + n.
Proof using n_pos.
  intros Hx. symmetry. apply Z.mod_unique with (q := -1); lia.
Qed.

(** The distance from [i] forward to [j], less one. *)
Lemma forward_gap i j :
  0 <= i < n -> 0 <= j < n -> i <> j ->
  (j - i - 1) mod n = if i <? j then j - i - 1 else j - i - 1 + n.
Proof using n_pos.
  intros Hi Hj Hij. destruct (Z.ltb_spec i j).
  - apply Z.mod_small; lia.
  - apply mod_below; lia.
Qed.

(** The code's test is the window of [half] positions after [index]. *)
Lemma in_window_spec i j :
  0 <= i < n -> 0 <= j < n -> i <> j ->
  in_window n half i j = ((j - i - 1) mod n <? half).
Proof using n_pos half_lo half_hi.
  intros Hi Hj Hij. rewrite forward_gap by assumption.
  unfold in_window.
  destruct (Z.ltb_spec i j) as [Hlt | Hge].
  - destruct (Z.leb_spec j (i + half)) as [Hin | Hout].
    + replace (j >=? i + 1) with true by (symmetry; apply Z.geb_le; lia).
      simpl. symmetry. apply Z.ltb_lt. lia.
    + rewrite andb_false_r. simpl.
      replace (j - i - 1 <? half) with false
        by (symmetry; apply Z.ltb_ge; lia).
      destruct (Z.geb_spec (i + half) n) as [Hw | Hw]; [| reflexivity].
      rewrite rem_wrap by lia. simpl. apply Z.leb_gt. lia.
  - replace (j >=? i + 1) with false
      by (symmetry; rewrite Z.geb_leb; apply Z.leb_gt; lia).
    simpl.
    destruct (Z.geb_spec (i + half) n) as [Hw | Hw]; simpl.
    + rewrite rem_wrap by lia.
      destruct (Z.leb_spec j (i + half - n));
        symmetry; [apply Z.ltb_lt | apply Z.ltb_ge]; lia.
    + symmetry. apply Z.ltb_ge. lia.
Qed.

End Window.

(** ** [indexOf] on a list without duplicates *)

Lemma indexOf_from_nth (arr : list string) :
  NoDup arr ->
  forall (i : nat) (x : string) (k : Z),
    nth_error arr i = Some x ->
    JsArray.indexOf_from arr x k = k + Z.of_nat i.
Proof.
  induction 1 as [| y rest Hnotin Hnd IH]; intros i x k Hnth.
  - destruct i; discriminate.
  - destruct i as [| i]; simpl in *.
    + injection Hnth as ->. rewrite String.eqb_refl. lia.
    + destruct (String.eqb_spec y x) as [-> | _].
      * exfalso. apply Hnotin. eapply nth_error_In; eassumption.
      * rewrite (IH i x (k + 1) Hnth). lia.
Qed.

Lemma indexOf_nth (arr : list string) (i : nat) (x : string) :
  NoDup arr -> nth_error arr i = Some x ->
  JsArray.indexOf arr x = Z.of_nat i.
Proof.
  intros Hnd Hnth. unfold JsArray.indexOf.
  rewrite (indexOf_from_nth arr Hnd i x 0 Hnth). lia.
Qed.

Lemma nth_error_bound (arr : list string) (i : nat) (x : string) :
  nth_error arr i = Some x -> 0 <= Z.of_nat i < JsArray.length arr.
Proof.
  intros Hnth. unfold JsArray.length.
  assert (i < List.length arr)%nat
    by (apply nth_error_Some; congruence).
  lia.
Qed.

Lemma distinct_positions (arr : list string) (i j : nat) (a b : string) :
  nth_error arr i = Some a -> nth_error arr j = Some b -> a <> b ->
  Z.of_nat i <> Z.of_nat j.
Proof.
  intros Ha Hb Hab Heq. apply Nat2Z.inj in Heq. subst j. congruence.
Qed.

Lemma half_bounds (mvs : list string) :
  valid_moveset mvs ->
  let n := JsArray.length mvs in
  0 < n /\ 0 <= (n - 1) / 2 /\ (n - 1) / 2 < n /\ n = 2 * ((n - 1) / 2) + 1.
Proof.
  intros (_ & Hodd & Hlen) n. fold n in Hodd, Hlen.
  rewrite Z.odd_spec in Hodd. destruct Hodd as [m Hm].
  replace ((n - 1) / 2) with m.
  - lia.
  - apply Z.div_unique with (r := 0); lia.
Qed.

(** ** The comparator *)

Lemma determineWinner_unfold (mvs : list string) (a b : string) :
  MoveRules.determineWinner mvs a b =
  if String.eqb a b then "Draw"
  else if in_window (JsArray.length mvs) ((JsArray.length mvs - 1) / 2)
                    (JsArray.indexOf mvs a) (JsArray.indexOf mvs b)
       then "Computer wins!" else "You win!".
Proof. reflexivity. Qed.

(** The verdict for two distinct members at positions [i] and [j], by the
    forward gap from [i] to [j]. *)
Lemma determineWinner_gap (mvs : list string) (a b : string) (i j : nat) :
  valid_moveset mvs ->
  nth_error mvs i = Some a -> nth_error mvs j = Some b -> a <> b ->
  MoveRules.determineWinner mvs a b =
  if (Z.of_nat j - Z.of_nat i - 1) mod JsArray.length mvs
     <? (JsArray.length mvs - 1) / 2
  then "Computer wins!" else "You win!".
Proof.
  intros Hv Ha Hb Hab.
  destruct (half_bounds mvs Hv) as (Hn & Hh0 & Hhn & _).
  rewrite determineWinner_unfold.
  destruct (String.eqb_spec a b) as [E | _]; [contradiction |].
  rewrite (indexOf_nth mvs i a (proj1 Hv) Ha), (indexOf_nth mvs j b (proj1 Hv) Hb).
  rewrite in_window_spec;
    eauto using nth_error_bound, distinct_positions.
Qed.

(** For an odd [n] the backward gap is short exactly when the forward
    gap is not. *)
Lemma gap_flip (n h i j : Z) :
  n = 2 * h + 1 -> 0 <= h ->
  0 <= i < n -> 0 <= j < n -> i <> j ->
  ((i - j - 1) mod n <? h) = negb ((j - i - 1) mod n <? h).
Proof.
  intros Hn Hh Hi Hj Hij.
  assert (Hn0 : 0 < n) by lia.
  rewrite !(forward_gap n Hn0) by lia.
  destruct (Z.ltb_spec j i), (Z.ltb_spec i j); lia.
Qed.

Ltac nodup_strings :=
  repeat (constructor; [simpl; intuition discriminate |]); constructor.

Lemma rps_valid : valid_moveset rps.
Proof. split; [nodup_strings | split; [reflexivity | vm_compute; discriminate]]. Qed.

Lemma rpsls_valid : valid_moveset rpsls.
Proof. split; [nodup_strings | split; [reflexivity | vm_compute; discriminate]]. Qed.

(** C3. The concrete scenarios: on [rock, paper, scissors] rock against
    scissors wins, scissors against rock loses, rock against paper loses
    and rock against rock draws; on [rock, spock, paper, lizard, scissors]
    rock against scissors wins, rock against spock loses and spock against
    rock wins. *)
Theorem C3_concrete_scenarios :
  MoveRules.determineWinner rps "rock" "scissors" = "You win!" /\
  MoveRules.determineWinner rps "scissors" "rock" = "Computer wins!" /\
  MoveRules.determineWinner rps "rock" "paper" = "Computer wins!" /\
  MoveRules.determineWinner rps "rock" "rock" = "Draw" /\
  MoveRules.determineWinner rpsls "rock" "scissors" = "You win!" /\
  MoveRules.determineWinner rpsls "rock" "spock" = "Computer wins!" /\
  MoveRules.determineWinner rpsls "spock" "rock" = "You win!".
Proof. repeat split; vm_compute; reflexivity. Qed.

(** C2, as stated, fails: on [rock, paper, scissors] rock (position 0)
    wins against scissors (position 2), while the forward gap
    [(2 - 0 - 1) mod 3 = 1] is not below [half = 1]. *)
Lemma C2_counterexample :
  valid_moveset rps /\
  nth_error rps 0 = Some "rock" /\ nth_error rps 2 = Some "scissors" /\
  ~ (MoveRules.determineWinner rps "rock" "scissors" = "You win!" <->
     (Z.of_nat 2 - Z.of_nat 0 - 1) mod JsArray.length rps
     < (JsArray.length rps - 1) / 2).
Proof.
  split; [exact rps_valid |]. split; [reflexivity |]. split; [reflexivity |].
  intros [Hwin _]. specialize (Hwin eq_refl). vm_compute in Hwin.
  discriminate.
Qed.

(** C2, amended.  For a valid MoveSet and distinct members [a], [b] at
    positions [i], [j]: the window [((j - i - 1) mod n) < floor((n-1)/2)]
    of the positions that follow [i] is where the second argument wins
    (['Computer wins!']); the first argument wins (['You win!']) exactly
    outside it. *)
Theorem C2_forward_window_loses (mvs : list string) (a b : string) (i j : nat) :
  valid_moveset mvs ->
  nth_error mvs i = Some a -> nth_error mvs j = Some b -> a <> b ->
  let n := JsArray.length mvs in
  (MoveRules.determineWinner mvs a b = "Computer wins!" <->
   (Z.of_nat j - Z.of_nat i - 1) mod n < (n - 1) / 2) /\
  (MoveRules.determineWinner mvs a b = "You win!" <->
   (n - 1) / 2 <= (Z.of_nat j - Z.of_nat i - 1) mod n).
Proof.
  intros Hv Ha Hb Hab n.
  rewrite (determineWinner_gap mvs a b i j Hv Ha Hb Hab). fold n.
  destruct (Z.ltb_spec ((Z.of_nat j - Z.of_nat i - 1) mod n) ((n - 1) / 2)).
  - split; split; intros; try reflexivity; try assumption;
      try discriminate; lia.
  - split; split; intros; try reflexivity; try assumption;
      try discriminate; lia.
Qed.

Lemma C2_forward_window_loses_witness :
  let n := JsArray.length rps in
  (MoveRules.determineWinner rps "rock" "paper" = "Computer wins!" <->
   (Z.of_nat 1 - Z.of_nat 0 - 1) mod n < (n - 1) / 2) /\
  (MoveRules.determineWinner rps "rock" "paper" = "You win!" <->
   (n - 1) / 2 <= (Z.of_nat 1 - Z.of_nat 0 - 1) mod n).
Proof.
  apply (C2_forward_window_loses rps "rock" "paper" 0 1 rps_valid);
    [reflexivity | reflexivity | discriminate].
Defined.

(** C10. For a valid MoveSet and distinct members [a], [b] at positions
    [i], [j]: [determineWinner(a, b) = 'You win!'] if and only if
    [((i - j - 1) mod n) < (n-1)/2], so a move beats the half of the
    moves that cyclically precede it. *)
Theorem C10_backward_window_wins (mvs : list string) (a b : string) (i j : nat) :
  valid_moveset mvs ->
  nth_error mvs i = Some a -> nth_error mvs j = Some b -> a <> b ->
  let n := JsArray.length mvs in
  MoveRules.determineWinner mvs a b = "You win!" <->
  (Z.of_nat i - Z.of_nat j - 1) mod n < (n - 1) / 2.
Proof.
  intros Hv Ha Hb Hab n.
  destruct (half_bounds mvs Hv) as (Hn & Hh0 & _ & Hodd). fold n in Hn, Hh0, Hodd.
  rewrite (determineWinner_gap mvs a b i j Hv Ha Hb Hab). fold n.
  rewrite <- Z.ltb_lt.
  rewrite (gap_flip n ((n - 1) / 2) (Z.of_nat i) (Z.of_nat j) Hodd Hh0
             (nth_error_bound mvs i a Ha) (nth_error_bound mvs j b Hb)
             (distinct_positions mvs i j a b Ha Hb Hab)).
  destruct ((Z.of_nat j - Z.of_nat i - 1) mod n <? (n - 1) / 2); simpl;
    split; intros; try reflexivity; discriminate.
Qed.

Lemma C10_backward_window_wins_witness :
  MoveRules.determineWinner rpsls "spock" "rock" = "You win!" <->
  (Z.of_nat 1 - Z.of_nat 0 - 1) mod JsArray.length rpsls
  < (JsArray.length rpsls - 1) / 2.
Proof.
  apply (C10_backward_window_wins rpsls "spock" "rock" 1 0 rpsls_valid);
    [reflexivity | reflexivity | discriminate].
Defined.

(** The verdict on a swapped pair of distinct members is the opposite
    one. *)
Lemma determineWinner_swap (mvs : list string) (a b : string) :
  valid_moveset mvs -> In a mvs -> In b mvs -> a <> b ->
  exists first_loses : bool,
    MoveRules.determineWinner mvs a b
    = (if first_loses then "Computer wins!" else "You win!") /\
    MoveRules.determineWinner mvs b a
    = (if first_loses then "You win!" else "Computer wins!").
Proof.
  intros Hv Hina Hinb Hab.
  destruct (In_nth_error mvs a Hina) as [i Ha].
  destruct (In_nth_error mvs b Hinb) as [j Hb].
  destruct (half_bounds mvs Hv) as (Hn & Hh0 & _ & Hodd).
  assert (Hba : b <> a) by congruence.
  rewrite (determineWinner_gap mvs a b i j Hv Ha Hb Hab).
  rewrite (determineWinner_gap mvs b a j i Hv Hb Ha Hba).
  rewrite (gap_flip _ _ (Z.of_nat i) (Z.of_nat j) Hodd Hh0
             (nth_error_bound mvs i a Ha) (nth_error_bound mvs j b Hb)
             (distinct_positions mvs i j a b Ha Hb Hab)).
  set (first_loses := (Z.of_nat j - Z.of_nat i - 1) mod JsArray.length mvs
                      <? (JsArray.length mvs - 1) / 2).
  exists first_loses. destruct first_loses; simpl; split; reflexivity.
Qed.

(** C6. Antisymmetry: for a valid MoveSet and distinct members [a], [b],
    [determineWinner(a, b) = 'You win!'] if and only if
    [determineWinner(b, a) = 'Computer wins!']; exactly one of the two
    ordered comparisons lets its first argument win; never both win and
    never both lose. *)
Theorem C6_antisymmetry (mvs : list string) (a b : string) :
  valid_moveset mvs -> In a mvs -> In b mvs -> a <> b ->
  (MoveRules.determineWinner mvs a b = "You win!" <->
   MoveRules.determineWinner mvs b a = "Computer wins!") /\
  (MoveRules.determineWinner mvs a b = "You win!" /\
   MoveRules.determineWinner mvs b a <> "You win!"
   \/
   MoveRules.determineWinner mvs a b <> "You win!" /\
   MoveRules.determineWinner mvs b a = "You win!") /\
  ~ (MoveRules.determineWinner mvs a b = "You win!" /\
     MoveRules.determineWinner mvs b a = "You win!") /\
  ~ (MoveRules.determineWinner mvs a b = "Computer wins!" /\
     MoveRules.determineWinner mvs b a = "Computer wins!").
Proof.
  intros Hv Hina Hinb Hab.
  destruct (determineWinner_swap mvs a b Hv Hina Hinb Hab) as [[|] [-> ->]].
  - split; [split; discriminate |].
    split; [right; split; [discriminate | reflexivity] |].
    split; intros [? ?]; discriminate.
  - split; [split; reflexivity |].
    split; [left; split; [reflexivity | discriminate] |].
    split; intros [? ?]; discriminate.
Qed.

Lemma C6_antisymmetry_witness :
  (MoveRules.determineWinner rpsls "lizard" "rock" = "You win!" <->
   MoveRules.determineWinner rpsls "rock" "lizard" = "Computer wins!") /\
  (MoveRules.determineWinner rpsls "lizard" "rock" = "You win!" /\
   MoveRules.determineWinner rpsls "rock" "lizard" <> "You win!"
   \/
   MoveRules.determineWinner rpsls "lizard" "rock" <> "You win!" /\
   MoveRules.determineWinner rpsls "rock" "lizard" = "You win!") /\
  ~ (MoveRules.determineWinner rpsls "lizard" "rock" = "You win!" /\
     MoveRules.determineWinner rpsls "rock" "lizard" = "You win!") /\
  ~ (MoveRules.determineWinner rpsls "lizard" "rock" = "Computer wins!" /\
     MoveRules.determineWinner rpsls "rock" "lizard" = "Computer wins!").
Proof.
  apply (C6_antisymmetry rpsls "lizard" "rock" rpsls_valid);
    [simpl; tauto | simpl; tauto | discriminate].
Defined.

(** ** The help table *)

(** With an odd number of moves the help table's test is the
    comparator's. *)
Lemma determineResult_window (mvs : list string) (a b : string) :
  Z.odd (JsArray.length mvs) = true ->
  HelpTableGenerator.determineResult mvs a b =
  if String.eqb a b then "Draw"
  else if in_window (JsArray.length mvs) ((JsArray.length mvs - 1) / 2)
                    (JsArray.indexOf mvs a) (JsArray.indexOf mvs b)
       then "Lose" else "Win".
Proof.
  intros Hodd. unfold HelpTableGenerator.determineResult, in_window.
  set (n := JsArray.length mvs) in *.
  set (i := JsArray.indexOf mvs a). set (j := JsArray.indexOf mvs b).
  assert (Hn0 : 0 <= n) by (unfold n, JsArray.length; lia).
  rewrite Z.odd_spec in Hodd. destruct Hodd as [h Hh].
  replace ((n - 1) / 2) with h
    by (apply Z.div_unique with (r := 0); lia).
  replace (2 * i + (n - 1)) with (2 * (i + h)) by lia.
  rewrite Z.mul_rem_distr_l by lia.
  replace (2 * j <=? 2 * (i + h)) with (j <=? i + h) by lia.
  replace (2 * (i + h) >=? 2 * n) with (i + h >=? n) by lia.
  replace (2 * j <=? 2 * Z.rem (i + h) n) with (j <=? Z.rem (i + h) n) by lia.
  reflexivity.
Qed.

(** C9. Help-table consistency: for a valid MoveSet and every ordered
    pair of moves [(a, b)], [determineResult(a, b)] is ['Win'], ['Lose']
    or ['Draw'] exactly when [determineWinner(a, b)] is ['You win!'],
    ['Computer wins!'] or ['Draw']. *)
Theorem C9_help_table_agrees (mvs : list string) (a b : string) :
  valid_moveset mvs -> In a mvs -> In b mvs ->
  (HelpTableGenerator.determineResult mvs a b = "Win" <->
   MoveRules.determineWinner mvs a b = "You win!") /\
  (HelpTableGenerator.determineResult mvs a b = "Lose" <->
   MoveRules.determineWinner mvs a b = "Computer wins!") /\
  (HelpTableGenerator.determineResult mvs a b = "Draw" <->
   MoveRules.determineWinner mvs a b = "Draw").
Proof.
  intros (_ & Hodd & _) _ _.
  rewrite (determineResult_window mvs a b Hodd), determineWinner_unfold.
  destruct (String.eqb a b); [| destruct (in_window _ _ _ _)];
    repeat split; intros; try reflexivity; discriminate.
Qed.

Lemma C9_help_table_agrees_witness :
  (HelpTableGenerator.determineResult rpsls "paper" "scissors" = "Win" <->
   MoveRules.determineWinner rpsls "paper" "scissors" = "You win!") /\
  (HelpTableGenerator.determineResult rpsls "paper" "scissors" = "Lose" <->
   MoveRules.determineWinner rpsls "paper" "scissors" = "Computer wins!") /\
  (HelpTableGenerator.determineResult rpsls "paper" "scissors" = "Draw" <->
   MoveRules.determineWinner rpsls "paper" "scissors" = "Draw").
Proof.
  apply (C9_help_table_agrees rpsls "paper" "scissors" rpsls_valid);
    simpl; tauto.
Defined.

(** ** Counting along the positions of a list *)

Lemma count_positions (l : list string) (p : string -> bool) (q : nat -> bool) :
  forall s : nat,
    (forall k x, nth_error l k = Some x -> p x = q (s + k)%nat) ->
    List.length (filter p l) = List.length (filter q (seq s (List.length l))).
Proof.
  induction l as [| y rest IH]; intros s Hpq; [reflexivity |].
  simpl. rewrite (Hpq 0%nat y eq_refl), Nat.add_0_r.
  assert (Hrest : List.length (filter p rest)
                  = List.length (filter q (seq (S s) (List.length rest)))).
  { apply IH. intros k x Hk. rewrite (Hpq (S k) x Hk). f_equal. lia. }
  destruct (q s); simpl; rewrite Hrest; reflexivity.
Qed.

(** The members of [s, s + len) that lie in [a, b). *)
Lemma count_interval (a b : nat) :
  forall len s : nat,
    List.length (filter (fun k => (a <=? k) && (k <? b))%nat (seq s len))
    = (Nat.min b (s + len) - Nat.max a s)%nat.
Proof.
  induction len as [| len IH]; intros s; simpl; [lia |].
  destruct (Nat.leb_spec a s), (Nat.ltb_spec s b); simpl; rewrite IH; lia.
Qed.

Lemma count_disjoint_or (p q : nat -> bool) (l : list nat) :
  (forall k, In k l -> p k && q k = false) ->
  List.length (filter (fun k => p k || q k) l)
  = (List.length (filter p l) + List.length (filter q l))%nat.
Proof.
  induction l as [| k rest IH]; intros Hdis; [reflexivity |].
  pose proof (Hdis k (or_introl eq_refl)) as Hk.
  assert (Hrest := IH (fun k' Hk' => Hdis k' (or_intror Hk'))).
  cbn [filter].
  destruct (p k), (q k); cbn [orb andb List.length] in *;
    try discriminate; lia.
Qed.

(** Two disjoint intervals of positions below [n], counted. *)
Lemma count_two_intervals (n a b c d : nat) :
  (b <= c \/ d <= a)%nat ->
  List.length
    (filter (fun k => ((a <=? k) && (k <? b)) || ((c <=? k) && (k <? d)))%nat
            (seq 0 n))
  = ((Nat.min b n - a) + (Nat.min d n - c))%nat.
Proof.
  intros Hdis.
  rewrite (count_disjoint_or (fun k => (a <=? k) && (k <? b))%nat
                             (fun k => (c <=? k) && (k <? d))%nat).
  - rewrite !count_interval. lia.
  - intros k _.
    destruct (Nat.leb_spec a k), (Nat.ltb_spec k b),
             (Nat.leb_spec c k), (Nat.ltb_spec k d); simpl; try reflexivity; lia.
Qed.

(** ** Balance *)

Section Balance.

Variable mvs : list string.
Hypothesis mvs_valid : valid_moveset mvs.
Variables (a : string) (i : nat).
Hypothesis a_at_i : nth_error mvs i = Some a.

Lemma balance_bounds :
  (i < List.length mvs /\ List.length mvs = 2 * half_of mvs + 1)%nat.
Proof using mvs_valid a_at_i.
  destruct (half_bounds mvs mvs_valid) as (Hn & Hh0 & Hhn & Hodd).
  pose proof (nth_error_bound mvs i a a_at_i) as Hi.
  unfold half_of, JsArray.length in *. lia.
Qed.

(** A member other than [a] loses to [a] at the positions before [i]
    and beats [a] at the positions after [i]. *)
Lemma verdict_at_position (k : nat) (x : string) :
  nth_error mvs k = Some x ->
  negb (String.eqb x a)
  && String.eqb (MoveRules.determineWinner mvs a x) "You win!"
  = beaten_positions (List.length mvs) (half_of mvs) i k
  /\
  negb (String.eqb x a)
  && String.eqb (MoveRules.determineWinner mvs a x) "Computer wins!"
  = beating_positions (List.length mvs) (half_of mvs) i k.
Proof using mvs_valid a_at_i.
  intros Hx.
  destruct (half_bounds mvs mvs_valid) as (Hn & Hh0 & Hhn & Hodd).
  destruct balance_bounds as [HiN HN].
  assert (HkN : (k < List.length mvs)%nat)
    by (apply nth_error_Some; congruence).
  assert (Hh : (JsArray.length mvs - 1) / 2 = Z.of_nat (half_of mvs))
    by (unfold half_of; lia).
  unfold beaten_positions, beating_positions.
  destruct (Nat.eq_dec k i) as [-> | Hki].
  - assert (x = a) by congruence. subst x. rewrite String.eqb_refl.
    simpl. split; lia.
  - assert (Hax : a <> x).
    { intros <-. apply Hki.
      apply (proj1 (NoDup_nth_error mvs) (proj1 mvs_valid));
        [exact HkN | congruence]. }
    destruct (String.eqb_spec x a) as [E | _]; [congruence |].
    rewrite (determineWinner_gap mvs a x i k mvs_valid a_at_i Hx Hax).
    rewrite (forward_gap _ Hn) by (unfold JsArray.length; lia).
    rewrite Hh. unfold JsArray.length.
    set (N := List.length mvs) in *. set (h := half_of mvs) in *.
    destruct (Z.ltb_spec (Z.of_nat i) (Z.of_nat k)) as [Hlt | Hge].
    + destruct (Z.ltb_spec (Z.of_nat k - Z.of_nat i - 1) (Z.of_nat h));
        simpl; split; lia.
    + destruct (Z.ltb_spec (Z.of_nat k - Z.of_nat i - 1 + Z.of_nat N)
                           (Z.of_nat h)); simpl; split; lia.
Qed.

Lemma beaten_count :
  count_verdict mvs a "You win!" = half_of mvs.
Proof using mvs_valid a_at_i.
  destruct balance_bounds as [Hi HN].
  unfold count_verdict.
  rewrite (count_positions mvs _
             (beaten_positions (List.length mvs) (half_of mvs) i) 0)
    by (intros k x Hx; apply (verdict_at_position k x Hx)).
  unfold beaten_positions.
  rewrite count_two_intervals by lia. lia.
Qed.

Lemma beating_count :
  count_verdict mvs a "Computer wins!" = half_of mvs.
Proof using mvs_valid a_at_i.
  destruct balance_bounds as [Hi HN].
  unfold count_verdict.
  rewrite (count_positions mvs _
             (beating_positions (List.length mvs) (half_of mvs) i) 0)
    by (intros k x Hx; apply (verdict_at_position k x Hx)).
  unfold beating_positions.
  rewrite count_two_intervals by lia. lia.
Qed.

End Balance.

(** C7. Balance: for a valid MoveSet of [n] moves and a member [a],
    exactly [(n-1)/2] of the other moves [x] have
    [determineWinner(a, x) = 'You win!'] and exactly [(n-1)/2] have
    [determineWinner(a, x) = 'Computer wins!']. *)
Theorem C7_balance (mvs : list string) (a : string) :
  valid_moveset mvs -> In a mvs ->
  Z.of_nat (count_verdict mvs a "You win!") = (JsArray.length mvs - 1) / 2 /\
  Z.of_nat (count_verdict mvs a "Computer wins!")
  = (JsArray.length mvs - 1) / 2.
Proof.
  intros Hv Hin. destruct (In_nth_error mvs a Hin) as [i Ha].
  destruct (half_bounds mvs Hv) as (_ & Hh0 & _ & _).
  rewrite (beaten_count mvs Hv a i Ha), (beating_count mvs Hv a i Ha).
  unfold half_of. lia.
Qed.

Lemma C7_balance_witness :
  Z.of_nat (count_verdict rpsls "paper" "You win!")
  = (JsArray.length rpsls - 1) / 2 /\
  Z.of_nat (count_verdict rpsls "paper" "Computer wins!")
  = (JsArray.length rpsls - 1) / 2.
Proof.
  apply (C7_balance rpsls "paper" rpsls_valid). simpl. tauto.
Defined.

(** ** The round controller *)

Lemma bind_step {A B} (m : M A) (f : A -> M B) (w w1 : World)
    (a : A) (out1 : list string) :
  m w = Some (a, w1, out1) ->
  bind m f w = match f a w1 with
               | Some (b, w2, out2) => Some (b, w2, (out1 ++ out2)%list)
               | None => None
               end.
Proof. intros Hm. unfold bind. rewrite Hm. reflexivity. Qed.

(** A loop whose body logs one line per element logs them in order. *)
Lemma forEach_console_log {A} (f : A -> string) (l : list A) (w : World) :
  forEach (fun x w0 => Some (tt, w0, [f x])) l w = Some (tt, w, map f l).
Proof.
  induction l as [| x rest IH]; [reflexivity |].
  simpl. unfold bind. rewrite IH. reflexivity.
Qed.

Lemma showMenu_lines (H : Host) (g : Game.t) (c : string) (w : World) :
  Game.computerMove g = Some c ->
  Game.showMenu H g w
  = Some (tt, w,
          ("HMAC: " ++ hmac_sha256_hex H (Game.hmacKey g) c)
          :: menu_lines (Game.moves g)).
Proof.
  intros Hc. unfold Game.showMenu, Game.generateHmac,
    HmacGenerator.generateHmac, menu_lines.
  rewrite Hc. unfold bind, ret, console_log. cbv beta iota.
  rewrite forEach_console_log. reflexivity.
Qed.

(** A random number in [0, 1) picks a member of a non-empty array. *)
Lemma randomMove_member (H : Host) (mvs : list string) (w : World) :
  random_in_range H -> 0 < JsArray.length mvs ->
  exists c, In c mvs /\
            Game.randomMove H mvs w = Some (Some c, after_random w, []).
Proof.
  intros Hr Hn.
  unfold Game.randomMove, math_random, bind, ret, after_random.
  destruct (Hr (random_calls w)) as [Hlo Hhi].
  set (r := Math_random H (random_calls w)) in *.
  set (idx := Qfloor (r * inject_Z (JsArray.length mvs))).
  assert (Hidx : 0 <= idx < JsArray.length mvs).
  { unfold idx. destruct r as [num den].
    unfold Qle, Qlt in Hlo, Hhi. simpl in Hlo, Hhi. simpl.
    split.
    - apply Z.div_pos; nia.
    - apply Z.div_lt_upper_bound; nia. }
  unfold JsArray.get.
  destruct (Z.ltb_spec idx 0) as [Hneg | _]; [lia |].
  destruct (nth_error mvs (Z.to_nat idx)) as [c |] eqn:Hc.
  - exists c. split; [eapply nth_error_In; eassumption | reflexivity].
  - apply nth_error_None in Hc. unfold JsArray.length in Hidx. lia.
Qed.

(** What [play] does once the random move is known: a submission that is
    not a member is turned away, yet the game keeps the new move. *)
Lemma play_rejected (H : Host) (g : Game.t) (u : option string)
    (c : string) (w w' : World) :
  Game.randomMove H (Game.moves g) w = Some (Some c, w', []) ->
  Game.isMoveValid g u = false ->
  Game.play H g u w
  = Some (with_move g c, w',
          ("Invalid move. Please try again." ++ LF)
          :: ("HMAC: " ++ hmac_sha256_hex H (Game.hmacKey g) c)
          :: menu_lines (Game.moves g)).
Proof.
  intros Hdraw Hinv. unfold Game.play. unfold bind at 1. rewrite Hdraw.
  cbv beta iota zeta. fold (with_move g c).
  change (Game.isMoveValid (with_move g c) u) with (Game.isMoveValid g u).
  rewrite Hinv.
  unfold Game.generateHmac, HmacGenerator.generateHmac.
  cbn [with_move Game.computerMove Game.hmacKey Game.moves negb].
  unfold bind, console_log, ret. cbv beta iota.
  rewrite (showMenu_lines H (with_move g c) c w' eq_refl).
  rewrite app_nil_r. reflexivity.
Qed.

(** A member is resolved against the new move, which is then disclosed
    with the key. *)
Lemma play_resolved (H : Host) (g : Game.t) (um c : string) (w w' : World) :
  Game.randomMove H (Game.moves g) w = Some (Some c, w', []) ->
  Game.isMoveValid g (Some um) = true ->
  Game.play H g (Some um) w
  = Some (with_move g c, w',
          ("HMAC: " ++ hmac_sha256_hex H (Game.hmacKey g) c)
          :: ("Your move: " ++ um)
          :: ("Computer move: " ++ c)
          :: MoveRules.determineWinner (Game.moves g) um c
          :: ("HMAC key: " ++ Game.hmacKey g ++ LF)
          :: ("HMAC: " ++ hmac_sha256_hex H (Game.hmacKey g) c)
          :: menu_lines (Game.moves g)).
Proof.
  intros Hdraw Hval. unfold Game.play. unfold bind at 1. rewrite Hdraw.
  cbv beta iota zeta. fold (with_move g c).
  change (Game.isMoveValid (with_move g c) (Some um)) with (Game.isMoveValid g (Some um)).
  rewrite Hval.
  unfold Game.generateHmac, HmacGenerator.generateHmac.
  cbn [with_move Game.computerMove Game.hmacKey Game.moves negb].
  unfold bind, console_log, ret. cbv beta iota.
  rewrite (showMenu_lines H (with_move g c) c w' eq_refl).
  rewrite app_nil_r. reflexivity.
Qed.

(** ** Validation of the command line *)

Lemma set_add_old (s : list string) (x : string) :
  In x s -> JsArray.set_add s x = s.
Proof.
  induction s as [| y rest IH]; intros Hin; [contradiction |].
  simpl. destruct (String.eqb_spec y x) as [_ | Hne]; [reflexivity |].
  destruct Hin as [E | Hin]; [contradiction |].
  rewrite (IH Hin). reflexivity.
Qed.

Lemma set_add_new (s : list string) (x : string) :
  ~ In x s -> JsArray.set_add s x = (s ++ [x])%list.
Proof.
  induction s as [| y rest IH]; intros Hnotin; [reflexivity |].
  simpl. destruct (String.eqb_spec y x) as [E | _].
  - exfalso. apply Hnotin. left. exact E.
  - rewrite IH; [reflexivity |]. intros Hin. apply Hnotin. right. exact Hin.
Qed.

Lemma set_grows_at_most (l s : list string) :
  (List.length (fold_left JsArray.set_add l s)
   <= List.length s + List.length l)%nat.
Proof.
  revert s. induction l as [| x rest IH]; intros s; simpl; [lia |].
  destruct (in_dec string_dec x s) as [Hin | Hnotin].
  - rewrite (set_add_old s x Hin). specialize (IH s). lia.
  - rewrite (set_add_new s x Hnotin). specialize (IH (s ++ [x])%list).
    rewrite length_app in IH. simpl in IH. lia.
Qed.

(** The set built from [l] on top of [s] gains one element per entry of
    [l] exactly when [l] has no duplicates and shares nothing with [s]. *)
Lemma set_grows_fully (l : list string) :
  forall s : list string,
    List.length (fold_left JsArray.set_add l s)
    = (List.length s + List.length l)%nat
    <-> NoDup l /\ (forall x, In x l -> ~ In x s).
Proof.
  induction l as [| x rest IH]; intros s; simpl.
  - split; [intros _; split; [constructor | intros ? []] | intros _; lia].
  - destruct (in_dec string_dec x s) as [Hin | Hnotin].
    + rewrite (set_add_old s x Hin). split.
      * intros Heq. pose proof (set_grows_at_most rest s). lia.
      * intros [_ Hfresh]. exfalso. apply (Hfresh x); [left; reflexivity | exact Hin].
    + rewrite (set_add_new s x Hnotin).
      specialize (IH (s ++ [x])%list). rewrite length_app in IH. simpl in IH.
      replace (List.length s + S (List.length rest))%nat
        with (List.length s + 1 + List.length rest)%nat by lia.
      rewrite IH. split.
      * intros [Hnd Hfresh]. split.
        -- constructor; [| exact Hnd].
           intros Hx. apply (Hfresh x Hx), in_or_app. right. left. reflexivity.
        -- intros y [<- | Hy]; [exact Hnotin |].
           intros Hys. apply (Hfresh y Hy), in_or_app. left. exact Hys.
      * intros [Hnd Hfresh]. inversion Hnd as [| ? ? Hx Hnd']; subst. split.
        -- exact Hnd'.
        -- intros y Hy Hin. apply in_app_or in Hin.
           destruct Hin as [Hin | [<- | []]].
           ++ apply (Hfresh y); [right; exact Hy | exact Hin].
           ++ contradiction.
Qed.

Lemma set_size_NoDup (mvs : list string) :
  JsArray.set_size mvs = JsArray.length mvs <-> NoDup mvs.
Proof.
  unfold JsArray.set_size, JsArray.new_Set, JsArray.length.
  rewrite Nat2Z.inj_iff.
  rewrite (set_grows_fully mvs []). simpl. split.
  - intros [Hnd _]. exact Hnd.
  - intros Hnd. split; [exact Hnd | intros ? _ []].
Qed.

(** The test of the entry point rejects exactly the lists that are too
    short, of even length, or with a repeated entry. *)
Lemma invalid_moves_spec (mvs : list string) :
  invalid_moves mvs = false <-> valid_moveset mvs.
Proof.
  unfold invalid_moves, valid_moveset.
  assert (Hn : 0 <= JsArray.length mvs) by (unfold JsArray.length; lia).
  rewrite !orb_false_iff, !negb_false_iff, Z.ltb_ge, !Z.eqb_eq, set_size_NoDup.
  rewrite Z.rem_mod_nonneg by lia. rewrite Zmod_odd.
  split.
  - intros [[Hlen Hodd] Hnd]. repeat split; try assumption.
    destruct (Z.odd (JsArray.length mvs)); [reflexivity | discriminate].
  - intros (Hnd & Hodd & Hlen). rewrite Hodd. repeat split; assumption.
Qed.

(** C8. Configuration validation: a command-line move list that is
    shorter than 3, of even length, or with a duplicate entry gets the two
    lines of the configuration error and no [Game] (no key and no random
    number is drawn); conversely, for a list of at least 3 distinct moves
    of odd length, and with [Math.random] in its range, a [Game] on that
    list is constructed and its first menu is shown. *)
Theorem C8_configuration_validation
    (H : Host) (node file : string) (mvs : list string) (w : World) :
  (JsArray.length mvs < 3 \/ Z.even (JsArray.length mvs) = true
   \/ ~ NoDup mvs ->
   main H (node :: file :: mvs) w
   = Some (None, w,
           [ "Invalid moves. Please provide an odd number of unique moves.";
             "Example: node game.js rock paper scissors" ]))
  /\
  (random_in_range H -> valid_moveset mvs ->
   exists c,
     In c mvs /\
     main H (node :: file :: mvs) w
     = Some (Some {| Game.moves := mvs;
                     Game.hmacKey := randomBytes_hex H (key_calls w);
                     Game.computerMove := Some c |},
             {| random_calls := S (random_calls w);
                key_calls := S (key_calls w) |},
             ("HMAC: "
              ++ hmac_sha256_hex H (randomBytes_hex H (key_calls w)) c)
             :: menu_lines mvs)).
Proof.
  unfold main. cbn [skipn]. split.
  - intros Hbad.
    destruct (invalid_moves mvs) eqn:Hinv; [reflexivity |].
    apply invalid_moves_spec in Hinv. destruct Hinv as (Hnd & Hodd & Hlen).
    destruct Hbad as [Hshort | [Heven | Hdup]].
    + lia.
    + rewrite <- Z.negb_odd, Hodd in Heven. discriminate.
    + contradiction.
  - intros Hr Hv.
    rewrite (proj2 (invalid_moves_spec mvs) Hv).
    destruct (half_bounds mvs Hv) as (Hn & _).
    unfold Game.constructor, KeyGenerator.generateKey.
    unfold bind at 1 2. cbv beta iota.
    set (w1 := {| random_calls := random_calls w;
                  key_calls := S (key_calls w) |}).
    destruct (randomMove_member H mvs w1 Hr Hn) as (c & Hin & Hdraw).
    exists c. split; [exact Hin |].
    rewrite (bind_step _ _ w1 _ _ _ Hdraw).
    unfold bind, ret. cbv beta iota.
    rewrite (showMenu_lines H
               {| Game.moves := mvs;
                  Game.hmacKey := randomBytes_hex H (key_calls w);
                  Game.computerMove := Some c |} c (after_random w1) eq_refl).
    rewrite !app_nil_r. reflexivity.
Qed.

Lemma demo_random_in_range (hm : string -> string -> string) :
  random_in_range (demo_host hm).
Proof.
  intros [| k]; simpl; split; unfold Qle, Qlt; simpl; lia.
Qed.

Lemma C8_configuration_validation_witness :
  main (demo_host tagged) ["node"; "game.js"; "rock"; "paper"] world0
  = Some (None, world0,
          [ "Invalid moves. Please provide an odd number of unique moves.";
            "Example: node game.js rock paper scissors" ])
  /\
  exists c,
    In c rps /\
    main (demo_host tagged) ["node"; "game.js"; "rock"; "paper"; "scissors"]
         world0
    = Some (Some {| Game.moves := rps;
                    Game.hmacKey := demo_key 0;
                    Game.computerMove := Some c |},
            {| random_calls := 1; key_calls := 1 |},
            ("HMAC: " ++ tagged (demo_key 0) c) :: menu_lines rps).
Proof.
  split.
  - apply (proj1 (C8_configuration_validation
                    (demo_host tagged) "node" "game.js" ["rock"; "paper"]
                    world0)).
    right. left. reflexivity.
  - apply (proj2 (C8_configuration_validation
                    (demo_host tagged) "node" "game.js" rps world0)).
    + apply demo_random_in_range.
    + exact rps_valid.
Defined.

(** ** Commitment and disclosure across [play] *)

(** [play] throws exactly when the new random move is [undefined]; the
    game it answers otherwise carries the new move and the old key. *)
Lemma play_outcome (H : Host) (g : Game.t) (u : option string) (w : World)
    (g' : Game.t) (w' : World) (out : list string) :
  Game.play H g u w = Some (g', w', out) ->
  exists c,
    Game.randomMove H (Game.moves g) w = Some (Some c, w', []) /\
    w' = after_random w /\ g' = with_move g c.
Proof.
  intros Hplay.
  assert (Hdraw : exists cm,
             Game.randomMove H (Game.moves g) w = Some (cm, after_random w, []))
    by (eexists; reflexivity).
  destruct Hdraw as [[c |] Hdraw].
  - exists c.
    destruct (Game.isMoveValid g u) eqn:Hval.
    + destruct u as [um |]; [| discriminate].
      rewrite (play_resolved H g um c w _ Hdraw Hval) in Hplay.
      injection Hplay as <- <- _. auto.
    + rewrite (play_rejected H g u c w _ Hdraw Hval) in Hplay.
      injection Hplay as <- <- _. auto.
  - unfold Game.play in Hplay.
    rewrite (bind_step _ _ w _ _ _ Hdraw) in Hplay.
    discriminate.
Qed.

(** C5, as stated, fails: on [rock paper scissors] two rounds played one
    after the other both disclose the key drawn at construction, the
    second round commits with the key that the first one disclosed, and
    no second key is ever drawn although the runtime had a different one
    to give. *)
Lemma C5_counterexample :
  exists g1 w1 out1 g2 w2 out2,
    Game.play (demo_host tagged) demo_game (Some "rock") demo_world
    = Some (g1, w1, out1) /\
    Game.play (demo_host tagged) g1 (Some "paper") w1
    = Some (g2, w2, out2) /\
    In ("HMAC key: " ++ demo_key 0 ++ LF) out1 /\
    In ("HMAC key: " ++ demo_key 0 ++ LF) out2 /\
    Game.hmacKey g1 = Game.hmacKey demo_game /\
    shown_commitment (demo_host tagged) g1
    = Some (tagged (demo_key 0) "paper") /\
    key_calls w2 = key_calls demo_world /\
    randomBytes_hex (demo_host tagged) (key_calls w2) <> demo_key 0.
Proof.
  do 6 eexists.
  split; [vm_compute; reflexivity |].
  split; [vm_compute; reflexivity |].
  split; [do 4 right; left; reflexivity |].
  split; [do 4 right; left; reflexivity |].
  split; [reflexivity |].
  split; [reflexivity |].
  split; [reflexivity |].
  vm_compute. discriminate.
Qed.

(** C1. The round on [rock paper scissors] in which the constructor
    draws rock and [play] draws paper, for any HMAC function [hm]: the
    menu shown before the player's move carries the HMAC of rock; [play]
    then resolves against paper and discloses paper with the key, so the
    verifier recomputes the HMAC of paper.  Replaying the disclosed values
    confirms the commitment shown only if the two HMACs collide; with a
    digest that separates the two messages the verifier refuses. *)
Theorem C1_disclosed_move_is_not_the_committed_one :
  forall hm : string -> string -> string,
    main (demo_host hm) node_rps world0
    = Some (Some demo_game, demo_world,
            ("HMAC: " ++ hm (demo_key 0) "rock") :: menu_lines rps)
    /\
    Game.play (demo_host hm) demo_game (Some "rock") demo_world
    = Some (with_move demo_game "paper", after_random demo_world,
            ("HMAC: " ++ hm (demo_key 0) "paper")
            :: "Your move: rock"
            :: "Computer move: paper"
            :: "Computer wins!"
            :: ("HMAC key: " ++ demo_key 0 ++ LF)
            :: ("HMAC: " ++ hm (demo_key 0) "paper")
            :: menu_lines rps)
    /\
    verifier_accepts (demo_host hm) (hm (demo_key 0) "rock")
                     (demo_key 0) "paper"
    = String.eqb (hm (demo_key 0) "paper") (hm (demo_key 0) "rock")
    /\
    verifier_accepts (demo_host tagged) (tagged (demo_key 0) "rock")
                     (demo_key 0) "paper"
    = false.
Proof.
  intros hm. repeat split; vm_compute; reflexivity.
Qed.

(** C4. The same game with the commitment to rock on show, for any HMAC
    function [hm]: the answer [1.5] passes the range test of the prompt
    loop and reaches [play] with [undefined]; so does a direct call with
    a move that is not a member.  Either way the submission is turned
    away, but the computer's move has become paper and the menu now
    shows the HMAC of paper; the key is the only part left as it was.
    The answer [7], which the prompt loop turns away by itself, leaves
    the game and the commitment untouched. *)
Theorem C4_rejected_submission_redraws_the_move :
  forall hm : string -> string -> string,
    shown_commitment (demo_host hm) demo_game
    = Some (hm (demo_key 0) "rock")
    /\
    on_answer (demo_host hm) rps demo_game "1.5" demo_world
    = Some ((with_move demo_game "paper", true), after_random demo_world,
            ("Invalid move. Please try again." ++ LF)
            :: ("HMAC: " ++ hm (demo_key 0) "paper")
            :: menu_lines rps)
    /\
    Game.play (demo_host hm) demo_game (Some "lizard") demo_world
    = Some (with_move demo_game "paper", after_random demo_world,
            ("Invalid move. Please try again." ++ LF)
            :: ("HMAC: " ++ hm (demo_key 0) "paper")
            :: menu_lines rps)
    /\
    Game.computerMove (with_move demo_game "paper")
    <> Game.computerMove demo_game
    /\
    shown_commitment (demo_host hm) (with_move demo_game "paper")
    = Some (hm (demo_key 0) "paper")
    /\
    on_answer (demo_host hm) rps demo_game "7" demo_world
    = Some ((demo_game, true), demo_world,
            ("Invalid move. Please try again." ++ LF)
            :: ("HMAC: " ++ hm (demo_key 0) "rock")
            :: menu_lines rps).
Proof.
  intros hm. repeat split; try (vm_compute; reflexivity).
  vm_compute. discriminate.
Qed.


(** * Further properties of the code *)

(** ** [indexOf] on any list *)

Lemma indexOf_from_absent (arr : list string) (x : string) :
  ~ In x arr -> forall k, JsArray.indexOf_from arr x k = -1.
Proof.
  induction arr as [| y rest IH]; intros Hnotin k; [reflexivity |].
  simpl. destruct (String.eqb_spec y x) as [E | _].
  - exfalso. apply Hnotin. left. exact E.
  - apply IH. intros Hin. apply Hnotin. right. exact Hin.
Qed.

Lemma indexOf_from_present (arr : list string) (x : string) :
  In x arr ->
  forall k, k <= JsArray.indexOf_from arr x k < k + JsArray.length arr.
Proof.
  unfold JsArray.length.
  induction arr as [| y rest IH]; intros Hin k; [contradiction |].
  simpl JsArray.indexOf_from. rewrite length_cons.
  destruct (String.eqb_spec y x) as [_ | Hne]; [lia |].
  destruct Hin as [E | Hin]; [contradiction |].
  specialize (IH Hin (k + 1)). lia.
Qed.

Lemma indexOf_absent (arr : list string) (x : string) :
  ~ In x arr -> JsArray.indexOf arr x = -1.
Proof. intros Hnotin. apply indexOf_from_absent. exact Hnotin. Qed.

Lemma indexOf_present (arr : list string) (x : string) :
  In x arr -> 0 <= JsArray.indexOf arr x < JsArray.length arr.
Proof.
  intros Hin. pose proof (indexOf_from_present arr x Hin 0) as Hr.
  unfold JsArray.indexOf. lia.
Qed.

Lemma indexOf_range (arr : list string) (x : string) :
  -1 <= JsArray.indexOf arr x < JsArray.length arr.
Proof.
  destruct (in_dec string_dec x arr) as [Hin | Hnotin].
  - pose proof (indexOf_present arr x Hin). lia.
  - rewrite (indexOf_absent arr x Hnotin). unfold JsArray.length. lia.
Qed.

(** [Math.floor((n - 1) / 2)] in linear form. *)
Lemma half_floor (n : Z) : 2 * ((n - 1) / 2) <= n - 1 < 2 * ((n - 1) / 2) + 2.
Proof.
  pose proof (Z.div_mod (n - 1) 2 ltac:(lia)) as Hdm.
  pose proof (Z.mod_pos_bound (n - 1) 2 ltac:(lia)) as Hb.
  lia.
Qed.

(** ** The comparator outside its intended inputs *)

(** X1. Whatever the list of moves, and whether or not the two moves are
    members, [determineWinner] answers ['Draw'] exactly when its two
    arguments are the same string. *)
Theorem determineWinner_draw_iff_same (mvs : list string) (a b : string) :
  MoveRules.determineWinner mvs a b = "Draw" <-> a = b.
Proof.
  rewrite determineWinner_unfold.
  destruct (String.eqb_spec a b) as [E | Hne].
  - split; [intros _; exact E | reflexivity].
  - destruct (in_window _ _ _ _); split; intros Habs;
      solve [discriminate | contradiction].
Qed.

(** X2. [determineWinner] does not reject a move that is not in the
    list; [indexOf] gives it position [-1].  An unknown first move loses
    to the members found at the first [half] positions and beats every
    other member; of two different unknown moves the first one wins; a
    member at position [i] loses to an unknown second move exactly when
    [i + half >= n]. *)
Theorem determineWinner_unknown_moves (mvs : list string) (a b : string) :
  let n := JsArray.length mvs in
  let half := (n - 1) / 2 in
  (~ In a mvs -> In b mvs ->
   MoveRules.determineWinner mvs a b
   = if JsArray.indexOf mvs b <? half then "Computer wins!" else "You win!")
  /\
  (~ In a mvs -> ~ In b mvs -> a <> b ->
   MoveRules.determineWinner mvs a b = "You win!")
  /\
  (In a mvs -> ~ In b mvs ->
   MoveRules.determineWinner mvs a b
   = if JsArray.indexOf mvs a + half >=? n
     then "Computer wins!" else "You win!").
Proof.
  intros n half. pose proof (half_floor n) as Hh. fold half in Hh.
  assert (Hn : 0 <= n) by (unfold n, JsArray.length; lia).
  rewrite determineWinner_unfold. fold n half. unfold in_window.
  split; [| split].
  - intros Ha Hb.
    destruct (String.eqb_spec a b) as [E | _]; [subst; contradiction |].
    rewrite (indexOf_absent mvs a Ha).
    pose proof (indexOf_present mvs b Hb) as Hj. fold n in Hj.
    set (j := JsArray.indexOf mvs b) in *.
    replace (-1 + half >=? n) with false by lia.
    replace ((j >=? -1 + 1) && (j <=? -1 + half)) with (j <? half) by lia.
    rewrite orb_false_r. reflexivity.
  - intros Ha Hb Hab.
    destruct (String.eqb_spec a b) as [E | _]; [contradiction |].
    rewrite (indexOf_absent mvs a Ha), (indexOf_absent mvs b Hb).
    replace (-1 + half >=? n) with false by lia.
    reflexivity.
  - intros Ha Hb.
    destruct (String.eqb_spec a b) as [E | _]; [subst; contradiction |].
    rewrite (indexOf_absent mvs b Hb).
    pose proof (indexOf_present mvs a Ha) as Hi. fold n in Hi.
    set (i := JsArray.indexOf mvs a) in *.
    replace (-1 >=? i + 1) with false by lia. simpl.
    destruct (Z.geb_spec (i + half) n) as [Hw | Hw]; [| reflexivity].
    rewrite Z.rem_mod_nonneg by lia.
    pose proof (Z.mod_pos_bound (i + half) n ltac:(lia)) as Hm.
    replace (-1 <=? (i + half) mod n) with true by lia.
    reflexivity.
Qed.

Lemma determineWinner_unknown_moves_witness :
  MoveRules.determineWinner rpsls "fire" "spock" = "Computer wins!" /\
  MoveRules.determineWinner rpsls "fire" "paper" = "You win!" /\
  MoveRules.determineWinner rpsls "fire" "water" = "You win!" /\
  MoveRules.determineWinner rpsls "lizard" "water" = "Computer wins!".
Proof.
  destruct (determineWinner_unknown_moves rpsls "fire" "spock")
    as (Hfirst & _ & _).
  destruct (determineWinner_unknown_moves rpsls "fire" "paper")
    as (Hfirst' & _ & _).
  destruct (determineWinner_unknown_moves rpsls "fire" "water")
    as (_ & Hboth & _).
  destruct (determineWinner_unknown_moves rpsls "lizard" "water")
    as (_ & _ & Hsecond).
  split; [| split; [| split]].
  - apply Hfirst; simpl; intuition discriminate.
  - apply Hfirst'; simpl; intuition discriminate.
  - apply Hboth; simpl; intuition discriminate.
  - apply Hsecond; simpl; intuition discriminate.
Defined.

(** The verdict by the forward gap, for any list without duplicates. *)
Lemma determineWinner_gap_any (mvs : list string) (a b : string) (i j : nat) :
  NoDup mvs ->
  nth_error mvs i = Some a -> nth_error mvs j = Some b -> a <> b ->
  MoveRules.determineWinner mvs a b =
  if (Z.of_nat j - Z.of_nat i - 1) mod JsArray.length mvs
     <? (JsArray.length mvs - 1) / 2
  then "Computer wins!" else "You win!".
Proof.
  intros Hnd Ha Hb Hab.
  pose proof (nth_error_bound mvs i a Ha) as Hi.
  pose proof (nth_error_bound mvs j b Hb) as Hj.
  pose proof (half_floor (JsArray.length mvs)) as Hh.
  rewrite determineWinner_unfold.
  destruct (String.eqb_spec a b) as [E | _]; [contradiction |].
  rewrite (indexOf_nth mvs i a Hnd Ha), (indexOf_nth mvs j b Hnd Hb).
  rewrite in_window_spec;
    eauto using distinct_positions; lia.
Qed.

(** X3. Why the length must be odd: in a duplicate-free list of even
    length [2m], two moves that sit [m] positions apart both get
    ['You win!'] against each other, whichever is given first. *)
Theorem determineWinner_even_set_both_win
    (mvs : list string) (a b : string) (i m : nat) :
  NoDup mvs ->
  List.length mvs = (2 * m)%nat ->
  nth_error mvs i = Some a -> nth_error mvs (i + m) = Some b ->
  MoveRules.determineWinner mvs a b = "You win!" /\
  MoveRules.determineWinner mvs b a = "You win!".
Proof.
  intros Hnd Hlen Ha Hb.
  pose proof (nth_error_bound mvs i a Ha) as Hi.
  pose proof (nth_error_bound mvs (i + m) b Hb) as Hj.
  assert (Hn : JsArray.length mvs = 2 * Z.of_nat m)
    by (unfold JsArray.length; lia).
  assert (Hm : 0 < Z.of_nat m) by lia.
  assert (Hab : a <> b).
  { intros <-.
    assert (i = i + m)%nat; [| lia].
    apply (proj1 (NoDup_nth_error mvs) Hnd);
      [apply nth_error_Some; congruence | congruence]. }
  assert (Hba : b <> a) by congruence.
  rewrite (determineWinner_gap_any mvs a b i (i + m) Hnd Ha Hb Hab).
  rewrite (determineWinner_gap_any mvs b a (i + m) i Hnd Hb Ha Hba).
  rewrite Hn.
  replace ((2 * Z.of_nat m - 1) / 2) with (Z.of_nat m - 1)
    by (apply Z.div_unique with (r := 1); lia).
  replace ((Z.of_nat (i + m) - Z.of_nat i - 1) mod (2 * Z.of_nat m))
    with (Z.of_nat m - 1)
    by (apply Z.mod_unique with (q := 0); lia).
  replace ((Z.of_nat i - Z.of_nat (i + m) - 1) mod (2 * Z.of_nat m))
    with (Z.of_nat m - 1)
    by (apply Z.mod_unique with (q := -1); lia).
  rewrite Z.ltb_irrefl. split; reflexivity.
Qed.

Lemma determineWinner_even_set_both_win_witness :
  MoveRules.determineWinner ["rock"; "paper"; "scissors"; "well"]
                            "rock" "scissors" = "You win!" /\
  MoveRules.determineWinner ["rock"; "paper"; "scissors"; "well"]
                            "scissors" "rock" = "You win!".
Proof.
  apply (determineWinner_even_set_both_win
           ["rock"; "paper"; "scissors"; "well"] "rock" "scissors" 0 2);
    [nodup_strings | reflexivity | reflexivity | reflexivity].
Defined.

(** ** The help table on any list *)

(** The help table's test, with its half-integer [half], is the
    comparator's on every list. *)
Lemma determineResult_window_any (mvs : list string) (a b : string) :
  HelpTableGenerator.determineResult mvs a b =
  if String.eqb a b then "Draw"
  else if in_window (JsArray.length mvs) ((JsArray.length mvs - 1) / 2)
                    (JsArray.indexOf mvs a) (JsArray.indexOf mvs b)
       then "Lose" else "Win".
Proof.
  unfold HelpTableGenerator.determineResult, in_window.
  pose proof (indexOf_range mvs a) as Hi.
  pose proof (indexOf_range mvs b) as Hj.
  pose proof (half_floor (JsArray.length mvs)) as Hh.
  set (n := JsArray.length mvs) in *.
  set (i := JsArray.indexOf mvs a) in *.
  set (j := JsArray.indexOf mvs b) in *.
  set (h := (n - 1) / 2) in *.
  destruct (String.eqb a b); [reflexivity |].
  replace (2 * j <=? 2 * i + (n - 1)) with (j <=? i + h) by lia.
  replace (2 * i + (n - 1) >=? 2 * n) with (i + h >=? n) by lia.
  destruct (Z.geb_spec (i + h) n) as [Hw | Hw].
  - rewrite (rem_wrap n) by lia.
    rewrite (rem_wrap (2 * n)) by lia.
    replace (2 * j <=? 2 * i + (n - 1) - 2 * n) with (j <=? i + h - n) by lia.
    reflexivity.
  - rewrite !andb_false_l. reflexivity.
Qed.

(** X4. On every list of moves and for every two strings, members or
    not, [determineResult] answers ['Win'], ['Lose'] or ['Draw'] exactly
    when [determineWinner] answers ['You win!'], ['Computer wins!'] or
    ['Draw']: the missing [Math.floor] in [determineResult] never
    matters, also for an even number of moves. *)
Theorem determineResult_agrees_on_every_list
    (mvs : list string) (a b : string) :
  (HelpTableGenerator.determineResult mvs a b = "Win" <->
   MoveRules.determineWinner mvs a b = "You win!") /\
  (HelpTableGenerator.determineResult mvs a b = "Lose" <->
   MoveRules.determineWinner mvs a b = "Computer wins!") /\
  (HelpTableGenerator.determineResult mvs a b = "Draw" <->
   MoveRules.determineWinner mvs a b = "Draw").
Proof.
  rewrite determineResult_window_any, determineWinner_unfold.
  destruct (String.eqb a b); [| destruct (in_window _ _ _ _)];
    (split; [| split]); split; intros Heq;
    solve [reflexivity | discriminate].
Qed.


(** X5. [generateHelpTable(moves)] is a square table of [n + 1] rows of
    [n + 1] cells: the header row is ['PC Moves'] followed by the moves,
    row [i + 1] starts with move [i], and its cell in column [j + 1] is
    [determineResult(moves[i], moves[j])]. *)
Theorem generateHelpTable_cells (this_moves moves : list string) :
  let table := HelpTableGenerator.generateHelpTable this_moves moves in
  List.length table = S (List.length moves) /\
  rectangular table /\
  nth_error table 0 = Some ("PC Moves" :: moves) /\
  (forall i mi, nth_error moves i = Some mi ->
                table_cell table (S i) 0 = Some mi) /\
  (forall i j mi mj,
      nth_error moves i = Some mi -> nth_error moves j = Some mj ->
      table_cell table (S i) (S j)
      = Some (HelpTableGenerator.determineResult this_moves mi mj)).
Proof.
  unfold HelpTableGenerator.generateHelpTable, table_cell, rectangular.
  cbn [nth_error hd List.length].
  split; [rewrite length_map; reflexivity |].
  split.
  { intros row [<- | Hin]; [reflexivity |].
    apply in_map_iff in Hin. destruct Hin as (mi & <- & _).
    cbn [List.length]. rewrite length_map. reflexivity. }
  split; [reflexivity |].
  split.
  - intros i mi Hi. rewrite nth_error_map, Hi. reflexivity.
  - intros i j mi mj Hi Hj.
    rewrite nth_error_map, Hi. cbn [option_map nth_error].
    rewrite nth_error_map, Hj. reflexivity.
Qed.

Lemma count_occ_map_filter (f : string -> string) (v : string)
    (l : list string) :
  count_occ string_dec (map f l) v
  = List.length (filter (fun x => String.eqb (f x) v) l).
Proof.
  induction l as [| x rest IH]; [reflexivity |].
  cbn [map filter count_occ].
  destruct (string_dec (f x) v) as [E | Hne].
  - rewrite E, String.eqb_refl. cbn [List.length]. rewrite IH. reflexivity.
  - destruct (String.eqb_spec (f x) v) as [E | _]; [contradiction | exact IH].
Qed.

Lemma count_equal_filter (a : string) (l : list string) :
  List.length (filter (fun x => String.eqb a x) l) = count_occ string_dec l a.
Proof.
  induction l as [| x rest IH]; [reflexivity |].
  cbn [filter count_occ].
  destruct (string_dec x a) as [E | Hne].
  - rewrite E, String.eqb_refl. cbn [List.length]. rewrite IH. reflexivity.
  - destruct (String.eqb_spec a x) as [E | _]; [congruence | exact IH].
Qed.

(** X6. In the help table of a valid MoveSet every row below the header
    holds, after the move's name, exactly [(n-1)/2] cells ['Win'],
    [(n-1)/2] cells ['Lose'] and one cell ['Draw']. *)
Theorem help_table_rows_balanced (mvs : list string) (i : nat) (a : string) :
  valid_moveset mvs -> nth_error mvs i = Some a ->
  exists cells,
    nth_error (HelpTableGenerator.generateHelpTable mvs mvs) (S i)
    = Some (a :: cells) /\
    count_occ string_dec cells "Win" = half_of mvs /\
    count_occ string_dec cells "Lose" = half_of mvs /\
    count_occ string_dec cells "Draw" = 1%nat.
Proof.
  intros Hv Ha.
  exists (map (fun mj => HelpTableGenerator.determineResult mvs a mj) mvs).
  split.
  { unfold HelpTableGenerator.generateHelpTable. cbn [nth_error].
    rewrite nth_error_map, Ha. reflexivity. }
  rewrite !count_occ_map_filter.
  split; [| split].
  - rewrite <- (beaten_count mvs Hv a i Ha). unfold count_verdict.
    f_equal. apply filter_ext. intros x.
    rewrite determineResult_window_any, determineWinner_unfold.
    rewrite (String.eqb_sym x a).
    destruct (String.eqb a x); [reflexivity |].
    destruct (in_window _ _ _ _); reflexivity.
  - rewrite <- (beating_count mvs Hv a i Ha). unfold count_verdict.
    f_equal. apply filter_ext. intros x.
    rewrite determineResult_window_any, determineWinner_unfold.
    rewrite (String.eqb_sym x a).
    destruct (String.eqb a x); [reflexivity |].
    destruct (in_window _ _ _ _); reflexivity.
  - rewrite <- (proj1 (NoDup_count_occ' string_dec mvs) (proj1 Hv) a
                  (nth_error_In mvs i Ha)).
    rewrite <- count_equal_filter.
    f_equal. apply filter_ext. intros x.
    rewrite determineResult_window_any.
    destruct (String.eqb a x); [reflexivity |].
    destruct (in_window _ _ _ _); reflexivity.
Qed.

Lemma help_table_rows_balanced_witness :
  exists cells,
    nth_error (HelpTableGenerator.generateHelpTable rpsls rpsls) 3
    = Some ("paper" :: cells) /\
    count_occ string_dec cells "Win" = half_of rpsls /\
    count_occ string_dec cells "Lose" = half_of rpsls /\
    count_occ string_dec cells "Draw" = 1%nat.
Proof.
  apply (help_table_rows_balanced rpsls 2 "paper" rpsls_valid).
  reflexivity.
Defined.

(** ** Printing the help table *)

Lemma string_length_append (s1 s2 : string) :
  String.length (s1 ++ s2) = (String.length s1 + String.length s2)%nat.
Proof.
  induction s1 as [| c rest IH]; [reflexivity |].
  simpl. rewrite IH. reflexivity.
Qed.

Lemma repeat_space_length (k : nat) : String.length (repeat_space k) = k.
Proof.
  induction k as [| k IH]; [reflexivity |]. simpl. rewrite IH. reflexivity.
Qed.

Lemma centred_length (cell : string) (width : nat) (p : string) :
  centred cell width p -> String.length p = width.
Proof.
  intros (l & r & -> & Hsum & _).
  rewrite !string_length_append, !repeat_space_length. lia.
Qed.

(** [Math.floor] and [Math.ceil] of the half of a non-negative integer. *)
Lemma floor_ceil_half (p : Z) :
  0 <= p ->
  0 <= p / 2 /\ p / 2 <= - ((- p) / 2) <= p / 2 + 1 /\
  p / 2 + - ((- p) / 2) = p.
Proof.
  intros Hp.
  pose proof (Z.div_mod p 2 ltac:(lia)) as Hd1.
  pose proof (Z.mod_pos_bound p 2 ltac:(lia)) as Hb1.
  pose proof (Z.div_mod (- p) 2 ltac:(lia)) as Hd2.
  pose proof (Z.mod_pos_bound (- p) 2 ltac:(lia)) as Hb2.
  lia.
Qed.

Lemma padCell_fits (cell : string) (m : nat) :
  (String.length cell <= m)%nat ->
  exists l r : nat,
    HelpTableGenerator.padCell cell (Some m)
    = Some (repeat_space l ++ cell ++ repeat_space r) /\
    (l + String.length cell + r = m)%nat /\
    (l <= r <= l + 1)%nat.
Proof.
  intros Hfit. unfold HelpTableGenerator.padCell, js_repeat_space.
  set (p := Z.of_nat m - Z.of_nat (String.length cell)).
  destruct (floor_ceil_half p ltac:(unfold p; lia)) as (Hl & Hr & Hsum).
  destruct (Z.ltb_spec (p / 2) 0) as [Hneg | _]; [lia |].
  destruct (Z.ltb_spec (- (- p / 2)) 0) as [Hneg | _]; [lia |].
  exists (Z.to_nat (p / 2)), (Z.to_nat (- (- p / 2))).
  split; [reflexivity |]. unfold p in *. lia.
Qed.

Lemma padCell_too_long (cell : string) (m : nat) :
  (m < String.length cell)%nat ->
  HelpTableGenerator.padCell cell (Some m) = None.
Proof.
  intros Hlong. unfold HelpTableGenerator.padCell, js_repeat_space.
  set (p := Z.of_nat m - Z.of_nat (String.length cell)).
  assert (Hneg : p / 2 < 0)
    by (apply Z.div_lt_upper_bound; unfold p; lia).
  destruct (Z.ltb_spec (p / 2) 0) as [_ | Hge]; [reflexivity | lia].
Qed.

(** X7. [padCell] centres a cell that fits: the result has exactly
    [maxLength] characters, the cell stands between two runs of spaces,
    and the run on the right is as long as the one on the left or one
    longer. *)
Theorem padCell_centres (cell : string) (maxLength : nat) :
  (String.length cell <= maxLength)%nat ->
  exists l r : nat,
    HelpTableGenerator.padCell cell (Some maxLength)
    = Some (repeat_space l ++ cell ++ repeat_space r) /\
    (l + String.length cell + r = maxLength)%nat /\
    (l <= r <= l + 1)%nat /\
    String.length (repeat_space l ++ cell ++ repeat_space r) = maxLength.
Proof.
  intros Hfit.
  destruct (padCell_fits cell maxLength Hfit) as (l & r & Hpad & Hsum & Hbal).
  exists l, r. split; [exact Hpad |]. split; [exact Hsum |].
  split; [exact Hbal |].
  rewrite !string_length_append, !repeat_space_length. lia.
Qed.

Lemma padCell_centres_witness :
  exists l r : nat,
    HelpTableGenerator.padCell "rock" (Some 9%nat)
    = Some (repeat_space l ++ "rock" ++ repeat_space r) /\
    (l + String.length "rock" + r = 9)%nat /\
    (l <= r <= l + 1)%nat /\
    String.length (repeat_space l ++ "rock" ++ repeat_space r) = 9%nat.
Proof.
  apply (padCell_centres "rock" 9). simpl. lia.
Defined.

(** X20. The error path of [padCell]: with a defined [maxLength] it
    throws (the [RangeError] of a negative [repeat] count) exactly when
    the cell is longer than [maxLength]; with [maxLength] undefined it
    answers the cell without padding. *)
Theorem padCell_throws_iff_cell_too_long (cell : string) :
  (forall maxLength : nat,
      HelpTableGenerator.padCell cell (Some maxLength) = None
      <-> (maxLength < String.length cell)%nat)
  /\ HelpTableGenerator.padCell cell None = Some cell.
Proof.
  split; [| reflexivity].
  intros maxLength. split.
  - intros Hnone.
    destruct (Nat.lt_ge_cases maxLength (String.length cell)) as [Hlt | Hge];
      [exact Hlt |].
    destruct (padCell_fits cell maxLength Hge) as (l & r & Hpad & _).
    congruence.
  - apply padCell_too_long.
Qed.

Lemma columnMax_from_thrown (i : nat) (rows : list (list string)) :
  columnMax_from i rows None = None.
Proof.
  induction rows as [| r rest IH]; [reflexivity | exact IH].
Qed.

Lemma columnMax_from_cons (i : nat) (r : list string)
    (rest : list (list string)) (acc : nat) :
  columnMax_from i (r :: rest) (Some acc)
  = columnMax_from i rest
      match nth_error r i with
      | None => None
      | Some cell =>
          Some (if (acc <? String.length cell)%nat
                then String.length cell else acc)
      end.
Proof. reflexivity. Qed.

(** What a completed inner loop has seen. *)
Lemma columnMax_from_some (i : nat) (rows : list (list string)) :
  forall acc m : nat,
    columnMax_from i rows (Some acc) = Some m ->
    (acc <= m)%nat /\
    (forall row, In row rows ->
                 exists cell, nth_error row i = Some cell /\
                              (String.length cell <= m)%nat) /\
    (m = acc \/
     exists row cell, In row rows /\ nth_error row i = Some cell /\
                      String.length cell = m).
Proof.
  induction rows as [| r rest IH]; intros acc m Hrun.
  - cbn in Hrun. injection Hrun as <-.
    split; [lia |]. split; [intros ? [] | left; reflexivity].
  - rewrite columnMax_from_cons in Hrun.
    destruct (nth_error r i) as [cell |] eqn:Hcell;
      [| rewrite columnMax_from_thrown in Hrun; discriminate].
    destruct (IH _ m Hrun) as (Hge & Hall & Hatt).
    assert (Hstep : (acc <= m /\ String.length cell <= m)%nat)
      by (destruct (Nat.ltb_spec acc (String.length cell)); lia).
    split; [lia |]. split.
    + intros row [<- | Hin]; [| apply Hall; exact Hin].
      exists cell. split; [exact Hcell | lia].
    + destruct Hatt as [Hm | (row & c & Hin & Hc & Hlen)].
      * destruct (Nat.ltb_spec acc (String.length cell)) as [Hlt | Hnlt].
        -- right. exists r, cell.
           split; [left; reflexivity |]. split; [exact Hcell | lia].
        -- left. exact Hm.
      * right. exists row, c. split; [right; exact Hin |].
        split; [exact Hc | exact Hlen].
Qed.

Lemma columnMax_from_total (i : nat) (rows : list (list string)) :
  (forall row, In row rows -> (i < List.length row)%nat) ->
  forall acc : nat, exists m, columnMax_from i rows (Some acc) = Some m.
Proof.
  induction rows as [| r rest IH]; intros Hcells acc.
  - exists acc. reflexivity.
  - rewrite columnMax_from_cons.
    destruct (nth_error r i) as [cell |] eqn:Hcell.
    + apply IH. intros row Hin. apply Hcells. right. exact Hin.
    + apply nth_error_None in Hcell.
      specialize (Hcells r (or_introl eq_refl)). lia.
Qed.

Lemma all_some_inv {A} (l : list (option A)) (ys : list A) :
  all_some l = Some ys -> l = map Some ys.
Proof.
  revert ys. induction l as [| [x |] rest IH]; intros ys Hall; cbn in Hall.
  - injection Hall as <-. reflexivity.
  - destruct (all_some rest) as [xs |]; [| discriminate].
    injection Hall as <-. cbn. rewrite (IH xs eq_refl). reflexivity.
  - discriminate.
Qed.

Lemma all_some_total {A} (l : list (option A)) :
  (forall o, In o l -> o <> None) -> exists ys, all_some l = Some ys.
Proof.
  induction l as [| [x |] rest IH]; intros Hne.
  - exists []. reflexivity.
  - destruct IH as [xs Hxs]; [intros o Ho; apply Hne; right; exact Ho |].
    exists (x :: xs). cbn. rewrite Hxs. reflexivity.
  - exfalso. exact (Hne None (or_introl eq_refl) eq_refl).
Qed.

(** A column maximum that was computed: its length and its entries. *)
Lemma column_maxima_inv (table : list (list string)) (ms : list nat) :
  HelpTableGenerator.calculateColumnMaxLengths table = Some ms ->
  table <> [] /\
  List.length ms = List.length (hd [] table) /\
  forall c, (c < List.length (hd [] table))%nat ->
            nth_error ms c = Some (nth c ms O) /\
            columnMax_from c table (Some O) = Some (nth c ms O).
Proof.
  unfold HelpTableGenerator.calculateColumnMaxLengths.
  destruct table as [| first rest]; [discriminate |].
  intros Hall. apply all_some_inv in Hall. cbn [hd].
  split; [discriminate |].
  assert (Hlen : List.length ms = List.length first).
  { rewrite <- (length_map Some ms), <- Hall, length_map, length_seq.
    reflexivity. }
  split; [exact Hlen |].
  intros c Hc.
  assert (Hms : nth_error ms c = Some (nth c ms O))
    by (apply nth_error_nth'; lia).
  split; [exact Hms |].
  assert (Hnth : nth_error (map (HelpTableGenerator.columnMax (first :: rest))
                                (seq 0 (List.length first))) c
                 = nth_error (map Some ms) c) by (rewrite Hall; reflexivity).
  rewrite !nth_error_map, Hms in Hnth.
  rewrite nth_error_seq in Hnth.
  destruct (Nat.ltb_spec c (List.length first)) as [_ | Hge]; [| lia].
  cbn in Hnth. injection Hnth as Hcol. exact Hcol.
Qed.

Lemma column_maxima_total (table : list (list string)) :
  table <> [] ->
  (forall row, In row table ->
               (List.length (hd [] table) <= List.length row)%nat) ->
  exists ms, HelpTableGenerator.calculateColumnMaxLengths table = Some ms.
Proof.
  intros Hne Hrows. unfold HelpTableGenerator.calculateColumnMaxLengths.
  destruct table as [| first rest]; [contradiction |]. cbn [hd] in Hrows.
  apply all_some_total. intros o Ho. apply in_map_iff in Ho.
  destruct Ho as (c & <- & Hc). apply in_seq in Hc.
  destruct (columnMax_from_total c (first :: rest)) with (acc := O)
    as [m Hm].
  - intros row Hin. specialize (Hrows row Hin). lia.
  - unfold HelpTableGenerator.columnMax.
    change (columnMax_from c (first :: rest) (Some O) <> None).
    rewrite Hm. discriminate.
Qed.

Lemma column_maxima_short_row (table : list (list string)) :
  has_short_row table ->
  HelpTableGenerator.calculateColumnMaxLengths table = None.
Proof.
  intros (row & Hin & Hshort).
  destruct (HelpTableGenerator.calculateColumnMaxLengths table)
    as [ms |] eqn:Hcalc; [| reflexivity].
  destruct (column_maxima_inv table ms Hcalc) as (_ & _ & Hcols).
  destruct (Hcols (List.length row) Hshort) as (_ & Hcol).
  destruct (columnMax_from_some _ table O _ Hcol) as (_ & Hall & _).
  destruct (Hall row Hin) as (cell & Hcell & _).
  assert (List.length row < List.length row)%nat; [| lia].
  apply nth_error_Some. congruence.
Qed.

(** Whether a table has a short row can be decided. *)
Lemma short_row_or_not (table : list (list string)) :
  has_short_row table \/
  (forall row, In row table ->
               (List.length (hd [] table) <= List.length row)%nat).
Proof.
  unfold has_short_row. generalize (List.length (hd [] table)) as W.
  intros W. induction table as [| r rest IH].
  - right. intros ? [].
  - destruct (Nat.lt_ge_cases (List.length r) W) as [Hlt | Hge].
    + left. exists r. split; [left; reflexivity | exact Hlt].
    + destruct IH as [(row & Hin & Hlt) | Hall].
      * left. exists row. split; [right; exact Hin | exact Hlt].
      * right. intros row [<- | Hin]; [exact Hge | apply Hall; exact Hin].
Qed.

(** X8. On a table that is not empty and is rectangular,
    [calculateColumnMaxLengths] answers one number per column; the number
    for a column is at least the length of every cell in that column and
    is the length of one of them. *)
Theorem calculateColumnMaxLengths_is_column_maximum
    (table : list (list string)) :
  table <> [] -> rectangular table ->
  exists maxLengths,
    HelpTableGenerator.calculateColumnMaxLengths table = Some maxLengths /\
    List.length maxLengths = List.length (hd [] table) /\
    (forall row c cell,
        In row table -> nth_error row c = Some cell ->
        (String.length cell <= nth c maxLengths O)%nat) /\
    (forall c, (c < List.length (hd [] table))%nat ->
               exists row cell,
                 In row table /\ nth_error row c = Some cell /\
                 String.length cell = nth c maxLengths O).
Proof.
  intros Hne Hrect.
  destruct (column_maxima_total table Hne) as [ms Hcalc].
  { intros row Hin. rewrite (Hrect row Hin). lia. }
  destruct (column_maxima_inv table ms Hcalc) as (_ & Hlen & Hcols).
  exists ms. split; [exact Hcalc |]. split; [exact Hlen |]. split.
  - intros row c cell Hin Hcell.
    assert (Hc : (c < List.length (hd [] table))%nat).
    { rewrite <- (Hrect row Hin). apply nth_error_Some. congruence. }
    destruct (Hcols c Hc) as (_ & Hcol).
    destruct (columnMax_from_some _ table O _ Hcol) as (_ & Hall & _).
    destruct (Hall row Hin) as (cell' & Hcell' & Hle). congruence.
  - intros c Hc. destruct (Hcols c Hc) as (_ & Hcol).
    destruct (columnMax_from_some _ table O _ Hcol) as (_ & Hall & Hatt).
    destruct Hatt as [Hzero | (row & cell & Hin & Hcell & Hlen')].
    + destruct table as [| first rest]; [contradiction |].
      destruct (Hall first (or_introl eq_refl)) as (cell & Hcell & Hle).
      exists first, cell. split; [left; reflexivity |].
      split; [exact Hcell | lia].
    + exists row, cell. split; [exact Hin |]. split; [exact Hcell | exact Hlen'].
Qed.

Lemma calculateColumnMaxLengths_is_column_maximum_witness :
  exists maxLengths,
    HelpTableGenerator.calculateColumnMaxLengths
      [["PC Moves"; "a"]; ["a"; "Draw"]] = Some maxLengths /\
    List.length maxLengths
    = List.length (hd [] [["PC Moves"; "a"]; ["a"; "Draw"]]) /\
    (forall row c cell,
        In row [["PC Moves"; "a"]; ["a"; "Draw"]] ->
        nth_error row c = Some cell ->
        (String.length cell <= nth c maxLengths O)%nat) /\
    (forall c,
        (c < List.length (hd [] [["PC Moves"; "a"]; ["a"; "Draw"]]))%nat ->
        exists row cell,
          In row [["PC Moves"; "a"]; ["a"; "Draw"]] /\
          nth_error row c = Some cell /\
          String.length cell = nth c maxLengths O).
Proof.
  apply (calculateColumnMaxLengths_is_column_maximum
           [["PC Moves"; "a"]; ["a"; "Draw"]]).
  - discriminate.
  - intros row [<- | [<- | []]]; reflexivity.
Defined.

Lemma rowString_from_thrown (ms : list nat) (row : list string) :
  forall s : nat, rowString_from ms s row None = None.
Proof.
  induction row as [| c rest IH]; intros s; [reflexivity |].
  exact (IH (S s)).
Qed.

Lemma rowString_from_cons (ms : list nat) (s : nat) (c : string)
    (rest : list string) (acc : string) :
  rowString_from ms s (c :: rest) (Some acc)
  = rowString_from ms (S s) rest
      match HelpTableGenerator.padCell c (nth_error ms s) with
      | None => None
      | Some paddedCell => Some (acc ++ " " ++ paddedCell ++ " |")
      end.
Proof. reflexivity. Qed.

Lemma skipn_nth_error (ms : list nat) :
  forall (s m : nat),
    nth_error ms s = Some m -> skipn s ms = m :: skipn (S s) ms.
Proof.
  induction ms as [| x rest IH]; intros s m Hs; [destruct s; discriminate |].
  destruct s as [| s].
  - cbn in Hs. injection Hs as ->. reflexivity.
  - cbn [skipn]. apply IH. exact Hs.
Qed.

(** A row whose cells all have a column, and fit it, is shown cell by
    cell, each centred in its column. *)
Lemma rowString_from_aligned (ms : list nat) (row : list string) :
  forall (s : nat) (acc : string),
    (forall k cell, nth_error row k = Some cell ->
                    exists m, nth_error ms (s + k) = Some m /\
                              (String.length cell <= m)%nat) ->
    exists padded,
      rowString_from ms s row (Some acc)
      = Some (fold_left (fun rowStr p => rowStr ++ " " ++ p ++ " |")
                        padded acc) /\
      Forall2 (fun cw p => centred (fst cw) (snd cw) p)
              (combine row (skipn s ms)) padded.
Proof.
  induction row as [| c rest IH]; intros s acc Hfit.
  - exists []. split; [reflexivity | constructor].
  - destruct (Hfit 0%nat c eq_refl) as (m & Hm & Hle).
    rewrite Nat.add_0_r in Hm.
    destruct (padCell_fits c m Hle) as (l & r & Hpad & Hsum & Hbal).
    destruct (IH (S s) (acc ++ " " ++ (repeat_space l ++ c ++ repeat_space r)
                        ++ " |"))
      as (padded & Hrun & Hall).
    { intros k cell Hk. destruct (Hfit (S k) cell Hk) as (m' & Hm' & Hle').
      exists m'. split; [| exact Hle'].
      replace (S s + k)%nat with (s + S k)%nat by lia. exact Hm'. }
    exists ((repeat_space l ++ c ++ repeat_space r) :: padded). split.
    + rewrite rowString_from_cons, Hm, Hpad. exact Hrun.
    + rewrite (skipn_nth_error ms s m Hm). cbn [combine].
      constructor; [| exact Hall].
      exists l, r. cbn [fst snd]. repeat split; try assumption; lia.
Qed.

(** A row whose cells fit the columns they have is shown without a
    throw, also when it is longer than the list of columns. *)
Lemma rowString_from_total (ms : list nat) (row : list string) :
  forall (s : nat) (acc : string),
    (forall k cell m, nth_error row k = Some cell ->
                      nth_error ms (s + k) = Some m ->
                      (String.length cell <= m)%nat) ->
    exists line, rowString_from ms s row (Some acc) = Some line.
Proof.
  induction row as [| c rest IH]; intros s acc Hfit.
  - exists acc. reflexivity.
  - rewrite rowString_from_cons.
    assert (Hpad : exists p, HelpTableGenerator.padCell c (nth_error ms s)
                             = Some p).
    { destruct (nth_error ms s) as [m |] eqn:Hm.
      - destruct (padCell_fits c m) as (l & r & Hpad & _).
        + apply (Hfit 0%nat c m eq_refl). rewrite Nat.add_0_r. exact Hm.
        + eexists. exact Hpad.
      - exists c. reflexivity. }
    destruct Hpad as [p ->]. apply IH.
    intros k cell m Hk Hm. apply (Hfit (S k) cell m Hk).
    replace (s + S k)%nat with (S s + k)%nat by lia. exact Hm.
Qed.

(** The loop of [printTable] over rows that can all be shown. *)
Lemma printTable_rows (ms : list nat) (P : list string -> string -> Prop)
    (table : list (list string)) (w : World) :
  (forall row, In row table ->
               exists line, HelpTableGenerator.rowString ms row = Some line /\
                            P row line) ->
  exists lines,
    forEach (fun row =>
               match HelpTableGenerator.rowString ms row with
               | None => throw
               | Some rowStr => console_log rowStr
               end) table w
    = Some (tt, w, lines) /\
    Forall2 P table lines.
Proof.
  induction table as [| r rest IH]; intros Hrows.
  - exists []. split; [reflexivity | constructor].
  - destruct (Hrows r (or_introl eq_refl)) as (line & Hline & HP).
    destruct IH as (lines & Hrun & Hall);
      [intros row Hin; apply Hrows; right; exact Hin |].
    exists (line :: lines). split; [| constructor; assumption].
    cbn [forEach].
    rewrite (bind_step _ _ w w tt [line])
      by (rewrite Hline; reflexivity).
    rewrite Hrun. reflexivity.
Qed.

(** The cells of a table whose column maxima were computed fit the
    columns they have. *)
Lemma cells_fit_columns (table : list (list string)) (ms : list nat) :
  HelpTableGenerator.calculateColumnMaxLengths table = Some ms ->
  forall row k cell m,
    In row table -> nth_error row k = Some cell -> nth_error ms k = Some m ->
    (String.length cell <= m)%nat.
Proof.
  intros Hcalc row k cell m Hin Hcell Hm.
  destruct (column_maxima_inv table ms Hcalc) as (_ & Hlen & Hcols).
  assert (Hk : (k < List.length (hd [] table))%nat).
  { rewrite <- Hlen. apply nth_error_Some. congruence. }
  destruct (Hcols k Hk) as (Hms & Hcol).
  destruct (columnMax_from_some _ table O _ Hcol) as (_ & Hall & _).
  destruct (Hall row Hin) as (cell' & Hcell' & Hle). congruence.
Qed.

Lemma printTable_world (table : list (list string)) (w w' : World)
    (out : list string) :
  HelpTableGenerator.printTable table w = Some (tt, w', out) -> w' = w.
Proof.
  unfold HelpTableGenerator.printTable.
  destruct (HelpTableGenerator.calculateColumnMaxLengths table)
    as [ms |] eqn:Hcalc; [| discriminate].
  destruct (printTable_rows ms (fun _ _ => True) table w)
    as (lines & Hrun & _).
  - intros row Hin.
    destruct (rowString_from_total ms row 0 "|") as [line Hline].
    + intros k cell m Hk Hm.
      exact (cells_fit_columns table ms Hcalc row k cell m Hin Hk Hm).
    + exists line. split; [exact Hline | exact I].
  - rewrite Hrun. intros Heq. injection Heq as <- _. reflexivity.
Qed.

(** X21. The error path of the table printer: [calculateColumnMaxLengths]
    throws exactly when the table is empty or has a row shorter than its
    first row, and [printTable] throws in exactly the same cases; once the
    column maxima exist no cell is longer than the width it is padded to,
    so [padCell] is never the one that throws. *)
Theorem printTable_throws_iff_empty_or_short_row
    (table : list (list string)) :
  (HelpTableGenerator.calculateColumnMaxLengths table = None
   <-> table = [] \/ has_short_row table)
  /\
  (forall w, HelpTableGenerator.printTable table w = None
             <-> table = [] \/ has_short_row table).
Proof.
  assert (Hcalc_iff :
            HelpTableGenerator.calculateColumnMaxLengths table = None
            <-> table = [] \/ has_short_row table).
  { split.
    - intros Hnone.
      destruct (short_row_or_not table) as [Hshort | Hlong];
        [right; exact Hshort |].
      destruct table as [| first rest] eqn:E; [left; reflexivity |].
      destruct (column_maxima_total (first :: rest)) as [ms Hms];
        [discriminate | exact Hlong | congruence].
    - intros [-> | Hshort]; [reflexivity |].
      apply column_maxima_short_row. exact Hshort. }
  split; [exact Hcalc_iff |].
  intros w. rewrite <- Hcalc_iff. split.
  - intros Hnone.
    destruct (HelpTableGenerator.calculateColumnMaxLengths table)
      as [ms |] eqn:Hcalc; [| reflexivity].
    exfalso. unfold HelpTableGenerator.printTable in Hnone.
    rewrite Hcalc in Hnone.
    destruct (printTable_rows ms (fun _ _ => True) table w)
      as (lines & Hrun & _); [| congruence].
    intros row Hin.
    destruct (rowString_from_total ms row 0 "|") as [line Hline].
    + intros k cell m Hk Hm.
      exact (cells_fit_columns table ms Hcalc row k cell m Hin Hk Hm).
    + exists line. split; [exact Hline | exact I].
  - intros Hnone. unfold HelpTableGenerator.printTable.
    rewrite Hnone. reflexivity.
Qed.

Lemma join_length (padded : list string) :
  forall acc : string,
    String.length
      (fold_left (fun rowStr p => rowStr ++ " " ++ p ++ " |") padded acc)
    = (String.length acc + 3 * List.length padded
       + list_sum (map String.length padded))%nat.
Proof.
  induction padded as [| p rest IH]; intros acc.
  - simpl. lia.
  - cbn [fold_left]. rewrite IH. rewrite !string_length_append.
    cbn [List.length map].
    change (list_sum (String.length p :: map String.length rest))
      with (String.length p + list_sum (map String.length rest))%nat.
    simpl String.length. lia.
Qed.

Lemma centred_cells_widths (ms : list nat) :
  forall (row padded : list string),
    List.length row = List.length ms ->
    Forall2 (fun cw p => centred (fst cw) (snd cw) p) (combine row ms) padded ->
    map String.length padded = ms.
Proof.
  induction ms as [| m rest IH]; intros row padded Hlen Hall.
  - destruct row; [| discriminate]. inversion Hall. reflexivity.
  - destruct row as [| c row']; [discriminate |].
    cbn [combine] in Hall. inversion Hall as [| ? p ? padded' Hc Hrest]; subst.
    cbn [map]. cbn [fst snd] in Hc.
    rewrite (centred_length c m p Hc).
    rewrite (IH row' padded'); [reflexivity | | exact Hrest].
    cbn [List.length] in Hlen. lia.
Qed.

Lemma aligned_line_length (ms : list nat) (row : list string)
    (line : string) :
  aligned_line ms row line ->
  String.length line = (1 + 3 * List.length ms + list_sum ms)%nat.
Proof.
  intros (Hlen & padded & Hall & ->).
  pose proof (centred_cells_widths ms row padded Hlen Hall) as Hw.
  unfold join_cells. rewrite join_length, Hw.
  rewrite <- (length_map String.length padded), Hw. simpl String.length. lia.
Qed.

Lemma Forall2_right_In {A B} (P : A -> B -> Prop) (l : list A) (l' : list B) :
  Forall2 P l l' -> forall y, In y l' -> exists x, In x l /\ P x y.
Proof.
  induction 1 as [| x y l l' Hxy _ IH]; intros z Hz; [contradiction |].
  destruct Hz as [<- | Hz].
  - exists x. split; [left; reflexivity | exact Hxy].
  - destruct (IH z Hz) as (x' & Hin & HP).
    exists x'. split; [right; exact Hin | exact HP].
Qed.

(** The table printer on a table that is not empty and is rectangular. *)
Lemma printTable_rectangular (table : list (list string)) (w : World) :
  table <> [] -> rectangular table ->
  exists maxLengths lines,
    HelpTableGenerator.calculateColumnMaxLengths table = Some maxLengths /\
    HelpTableGenerator.printTable table w = Some (tt, w, lines) /\
    Forall2 (aligned_line maxLengths) table lines.
Proof.
  intros Hne Hrect.
  destruct (column_maxima_total table Hne) as [ms Hcalc].
  { intros row Hin. rewrite (Hrect row Hin). lia. }
  destruct (column_maxima_inv table ms Hcalc) as (_ & Hlen & _).
  destruct (printTable_rows ms (aligned_line ms) table w)
    as (lines & Hrun & Hall).
  { intros row Hin.
    assert (Hrow : List.length row = List.length ms)
      by (rewrite (Hrect row Hin); lia).
    destruct (rowString_from_aligned ms row 0 "|") as (padded & Hline & Hcells).
    - intros k cell Hk. cbn [Nat.add].
      assert (HkW : (k < List.length ms)%nat)
        by (rewrite <- Hrow; apply nth_error_Some; congruence).
      exists (nth k ms O). split; [apply nth_error_nth'; exact HkW |].
      apply (cells_fit_columns table ms Hcalc row k cell _ Hin Hk).
      apply nth_error_nth'. exact HkW.
    - eexists. split; [exact Hline |].
      split; [exact Hrow |]. exists padded. split; [exact Hcells | reflexivity]. }
  exists ms, lines. split; [exact Hcalc |]. split; [| exact Hall].
  unfold HelpTableGenerator.printTable. rewrite Hcalc. exact Hrun.
Qed.

(** X9. [printTable] on a table that is not empty and is rectangular
    changes nothing but the console and logs one line per row.  Every
    line is a bar followed, for each column, by a space, the cell of the
    row centred in exactly the column's maximum, a space and a bar; so
    the bars of all lines stand at the same positions, no cell exceeds
    the width it is padded to, and every line has the length 1 plus, for
    every column, its maximum and 3. *)
Theorem printTable_aligned (table : list (list string)) (w : World) :
  table <> [] -> rectangular table ->
  exists maxLengths lines,
    HelpTableGenerator.calculateColumnMaxLengths table = Some maxLengths /\
    HelpTableGenerator.printTable table w = Some (tt, w, lines) /\
    List.length lines = List.length table /\
    Forall2 (aligned_line maxLengths) table lines /\
    forall line, In line lines ->
      String.length line
      = (1 + 3 * List.length (hd [] table) + list_sum maxLengths)%nat.
Proof.
  intros Hne Hrect.
  destruct (printTable_rectangular table w Hne Hrect)
    as (ms & lines & Hcalc & Hrun & Hall).
  destruct (column_maxima_inv table ms Hcalc) as (_ & Hlen & _).
  exists ms, lines. split; [exact Hcalc |]. split; [exact Hrun |].
  split; [symmetry; exact (Forall2_length Hall) |].
  split; [exact Hall |].
  intros line Hline.
  destruct (Forall2_right_In _ _ _ Hall line Hline) as (row & _ & Haligned).
  rewrite (aligned_line_length ms row line Haligned), Hlen. reflexivity.
Qed.

Lemma printTable_aligned_witness :
  exists maxLengths lines,
    HelpTableGenerator.calculateColumnMaxLengths
      (HelpTableGenerator.generateHelpTable rps rps) = Some maxLengths /\
    HelpTableGenerator.printTable
      (HelpTableGenerator.generateHelpTable rps rps) world0
    = Some (tt, world0, lines) /\
    List.length lines
    = List.length (HelpTableGenerator.generateHelpTable rps rps) /\
    Forall2 (aligned_line maxLengths)
            (HelpTableGenerator.generateHelpTable rps rps) lines /\
    forall line, In line lines ->
      String.length line
      = (1 + 3 * List.length
                   (hd [] (HelpTableGenerator.generateHelpTable rps rps))
         + list_sum maxLengths)%nat.
Proof.
  apply (printTable_aligned
           (HelpTableGenerator.generateHelpTable rps rps) world0).
  - discriminate.
  - intros row Hin. simpl in Hin.
    destruct Hin as [<- | [<- | [<- | [<- | []]]]]; reflexivity.
Defined.

(** The generated help table is never empty and always rectangular. *)
Lemma generateHelpTable_shape (this_moves moves : list string) :
  HelpTableGenerator.generateHelpTable this_moves moves <> [] /\
  rectangular (HelpTableGenerator.generateHelpTable this_moves moves).
Proof.
  unfold HelpTableGenerator.generateHelpTable, rectangular.
  split; [discriminate |].
  cbn [hd List.length].
  intros row [<- | Hin]; [reflexivity |].
  apply in_map_iff in Hin. destruct Hin as (mi & <- & _).
  cbn [List.length]. rewrite length_map. reflexivity.
Qed.


(** ** The game object *)

Lemma isMoveValid_member (g : Game.t) (m : string) :
  Game.isMoveValid g (Some m) = true <-> In m (Game.moves g).
Proof.
  unfold Game.isMoveValid, JsArray.includes. rewrite existsb_exists. split.
  - intros (y & Hin & Heq). apply String.eqb_eq in Heq. subst y. exact Hin.
  - intros Hin. exists m. split; [exact Hin | apply String.eqb_refl].
Qed.

Lemma nonempty_length (mvs : list string) (c : string) :
  In c mvs -> 0 < JsArray.length mvs.
Proof.
  intros Hin. unfold JsArray.length. destruct mvs; [contradiction |].
  cbn [List.length]. lia.
Qed.

(** On the empty array every random number picks [undefined]. *)
Lemma randomMove_empty (H : Host) (w : World) :
  Game.randomMove H [] w = Some (None, after_random w, []).
Proof.
  unfold Game.randomMove, math_random, bind, ret, after_random.
  destruct (Math_random H (random_calls w)) as [num den].
  cbn. rewrite Z.mul_0_r. rewrite Zdiv_0_l. reflexivity.
Qed.

(** X10. [new Game(moves)] draws exactly one key and one random number.
    With [Math.random] in its range and at least one move, the computer's
    move of the new game is a member of [moves]; on the empty list the
    computer's move is [undefined] and showing the menu throws. *)
Theorem constructor_draws_key_and_move (H : Host) (mvs : list string)
    (w : World) :
  let w' := {| random_calls := S (random_calls w);
               key_calls := S (key_calls w) |} in
  (random_in_range H -> mvs <> [] ->
   exists c,
     In c mvs /\
     Game.constructor H mvs w
     = Some ({| Game.moves := mvs;
                Game.hmacKey := randomBytes_hex H (key_calls w);
                Game.computerMove := Some c |}, w', []))
  /\
  (mvs = [] ->
   exists g,
     Game.constructor H mvs w = Some (g, w', []) /\
     Game.computerMove g = None /\
     Game.showMenu H g w' = None).
Proof.
  intros w'. unfold Game.constructor, KeyGenerator.generateKey.
  set (w1 := {| random_calls := random_calls w;
                key_calls := S (key_calls w) |}).
  split.
  - intros Hr Hne.
    assert (Hn : 0 < JsArray.length mvs).
    { destruct mvs as [| m rest]; [contradiction |].
      apply (nonempty_length (m :: rest) m). left. reflexivity. }
    destruct (randomMove_member H mvs w1 Hr Hn) as (c & Hin & Hdraw).
    exists c. split; [exact Hin |].
    unfold bind at 1. cbv beta iota.
    rewrite (bind_step _ _ w1 _ _ _ Hdraw). reflexivity.
  - intros ->.
    exists {| Game.moves := []; Game.hmacKey := randomBytes_hex H (key_calls w);
              Game.computerMove := None |}.
    split; [| split; reflexivity].
    unfold bind at 1. cbv beta iota.
    rewrite (bind_step _ _ w1 _ _ _ (randomMove_empty H w1)). reflexivity.
Qed.

Lemma constructor_draws_key_and_move_witness :
  (exists c,
     In c rpsls /\
     Game.constructor (demo_host tagged) rpsls world0
     = Some ({| Game.moves := rpsls;
                Game.hmacKey := demo_key 0;
                Game.computerMove := Some c |},
             {| random_calls := 1; key_calls := 1 |}, []))
  /\
  (exists g,
     Game.constructor (demo_host tagged) [] world0
     = Some (g, {| random_calls := 1; key_calls := 1 |}, []) /\
     Game.computerMove g = None /\
     Game.showMenu (demo_host tagged) g
                   {| random_calls := 1; key_calls := 1 |} = None).
Proof.
  split.
  - apply (proj1 (constructor_draws_key_and_move
                    (demo_host tagged) rpsls world0)).
    + apply demo_random_in_range.
    + discriminate.
  - apply (proj2 (constructor_draws_key_and_move
                    (demo_host tagged) [] world0)).
    reflexivity.
Defined.

(** X11. With [Math.random] in its range, a submission that is a member
    of the moves is always resolved: [play] draws one random number and
    no key, picks a member [c] as the computer's move, prints the HMAC of
    [c], both moves, the verdict of [determineWinner] on the submission
    against [c], and the key; the key and the moves of the game stay, and
    the menu printed for the next round commits to this same [c] under
    this same key, both just disclosed. *)
Theorem play_resolves_member (H : Host) (g : Game.t) (um : string)
    (w : World) :
  random_in_range H -> In um (Game.moves g) ->
  exists c,
    In c (Game.moves g) /\
    Game.play H g (Some um) w
    = Some (with_move g c, after_random w,
            ("HMAC: " ++ hmac_sha256_hex H (Game.hmacKey g) c)
            :: ("Your move: " ++ um)
            :: ("Computer move: " ++ c)
            :: MoveRules.determineWinner (Game.moves g) um c
            :: ("HMAC key: " ++ Game.hmacKey g ++ LF)
            :: ("HMAC: " ++ hmac_sha256_hex H (Game.hmacKey g) c)
            :: menu_lines (Game.moves g)) /\
    shown_commitment H (with_move g c)
    = Some (hmac_sha256_hex H (Game.hmacKey g) c) /\
    verifier_accepts H (hmac_sha256_hex H (Game.hmacKey g) c)
                     (Game.hmacKey g) c = true.
Proof.
  intros Hr Hum.
  destruct (randomMove_member H (Game.moves g) w Hr
              (nonempty_length (Game.moves g) um Hum)) as (c & Hin & Hdraw).
  exists c. split; [exact Hin |].
  split; [| split].
  - apply (play_resolved H g um c w _ Hdraw).
    apply isMoveValid_member. exact Hum.
  - reflexivity.
  - unfold verifier_accepts. apply String.eqb_refl.
Qed.

Lemma play_resolves_member_witness :
  exists c,
    In c (Game.moves demo_game) /\
    Game.play (demo_host tagged) demo_game (Some "scissors") demo_world
    = Some (with_move demo_game c, after_random demo_world,
            ("HMAC: " ++ tagged (Game.hmacKey demo_game) c)
            :: ("Your move: " ++ "scissors")
            :: ("Computer move: " ++ c)
            :: MoveRules.determineWinner (Game.moves demo_game) "scissors" c
            :: ("HMAC key: " ++ Game.hmacKey demo_game ++ LF)
            :: ("HMAC: " ++ tagged (Game.hmacKey demo_game) c)
            :: menu_lines (Game.moves demo_game)) /\
    shown_commitment (demo_host tagged) (with_move demo_game c)
    = Some (tagged (Game.hmacKey demo_game) c) /\
    verifier_accepts (demo_host tagged) (tagged (Game.hmacKey demo_game) c)
                     (Game.hmacKey demo_game) c = true.
Proof.
  apply (play_resolves_member (demo_host tagged) demo_game "scissors"
           demo_world).
  - apply demo_random_in_range.
  - simpl. tauto.
Defined.

(** X12. With [Math.random] in its range and at least one move, a
    submission that is [undefined] or not a member is turned away without
    a verdict and without disclosing the key, but only after a new
    computer's move [c] was drawn: the game keeps [c], and the menu
    printed after the message commits to [c]. *)
Theorem play_rejects_non_member (H : Host) (g : Game.t) (u : option string)
    (w : World) :
  random_in_range H -> Game.moves g <> [] ->
  (forall m, u = Some m -> ~ In m (Game.moves g)) ->
  exists c,
    In c (Game.moves g) /\
    Game.play H g u w
    = Some (with_move g c, after_random w,
            ("Invalid move. Please try again." ++ LF)
            :: ("HMAC: " ++ hmac_sha256_hex H (Game.hmacKey g) c)
            :: menu_lines (Game.moves g)).
Proof.
  intros Hr Hne Hu.
  assert (Hn : 0 < JsArray.length (Game.moves g)).
  { destruct (Game.moves g) as [| m rest] eqn:E; [contradiction |].
    apply (nonempty_length (m :: rest) m). left. reflexivity. }
  destruct (randomMove_member H (Game.moves g) w Hr Hn) as (c & Hin & Hdraw).
  exists c. split; [exact Hin |].
  apply (play_rejected H g u c w _ Hdraw).
  destruct u as [m |]; [| reflexivity].
  destruct (Game.isMoveValid g (Some m)) eqn:Hval; [| reflexivity].
  apply isMoveValid_member in Hval. exfalso. exact (Hu m eq_refl Hval).
Qed.

Lemma play_rejects_non_member_witness :
  exists c,
    In c (Game.moves demo_game) /\
    Game.play (demo_host tagged) demo_game None demo_world
    = Some (with_move demo_game c, after_random demo_world,
            ("Invalid move. Please try again." ++ LF)
            :: ("HMAC: " ++ tagged (Game.hmacKey demo_game) c)
            :: menu_lines (Game.moves demo_game)).
Proof.
  apply (play_rejects_non_member (demo_host tagged) demo_game None demo_world).
  - apply demo_random_in_range.
  - discriminate.
  - discriminate.
Defined.


(** ** The prompt loop *)

Lemma on_answer_number (H : Host) (mvs : list string) (g : Game.t)
    (answer : string) :
  answer <> "0" -> answer <> "?" ->
  on_answer H mvs g answer
  = match js_Number H answer with
    | Some num =>
        if Qle_bool 0 (num - 1)
           && negb (Qle_bool (inject_Z (JsArray.length mvs)) (num - 1))
        then loop_plays H g (JsArray.get_num mvs (num - 1))
        else loop_rejects H g
    | None => loop_rejects H g
    end.
Proof.
  intros H0 Hq. unfold on_answer.
  destruct (String.eqb_spec answer "0") as [E | _]; [contradiction |].
  destruct (String.eqb_spec answer "?") as [E | _]; [contradiction |].
  reflexivity.
Qed.

Lemma loop_rejects_lines (H : Host) (g : Game.t) (c : string) (w : World) :
  Game.computerMove g = Some c ->
  loop_rejects H g w
  = Some ((g, true), w,
          ("Invalid move. Please try again." ++ LF)
          :: ("HMAC: " ++ hmac_sha256_hex H (Game.hmacKey g) c)
          :: menu_lines (Game.moves g)).
Proof.
  intros Hc. unfold loop_rejects, bind, console_log, ret. cbv beta iota.
  rewrite (showMenu_lines H g c w Hc). rewrite app_nil_r. reflexivity.
Qed.

(** X13. An answer other than [0] and [?] whose number is [NaN], or for
    which [Number(answer) - 1] is below 0 or not below the number of
    moves, is turned away by the prompt loop itself: the game, its
    computer's move and the random sources are untouched, and the menu
    printed after the message shows the commitment that was on show. *)
Theorem on_answer_out_of_range_changes_nothing
    (H : Host) (mvs : list string) (g : Game.t) (answer c : string)
    (w : World) :
  answer <> "0" -> answer <> "?" ->
  Game.computerMove g = Some c ->
  (forall num, js_Number H answer = Some num ->
               ~ (0 <= num - 1 /\ num - 1 < inject_Z (JsArray.length mvs))%Q) ->
  on_answer H mvs g answer w
  = Some ((g, true), w,
          ("Invalid move. Please try again." ++ LF)
          :: ("HMAC: " ++ hmac_sha256_hex H (Game.hmacKey g) c)
          :: menu_lines (Game.moves g)).
Proof.
  intros H0 Hq Hc Hout.
  rewrite (on_answer_number H mvs g answer H0 Hq).
  destruct (js_Number H answer) as [num |];
    [| apply loop_rejects_lines; exact Hc].
  destruct (Qle_bool 0 (num - 1)) eqn:Hlo;
    [| apply loop_rejects_lines; exact Hc].
  destruct (Qle_bool (inject_Z (JsArray.length mvs)) (num - 1)) eqn:Hhi;
    [apply loop_rejects_lines; exact Hc |].
  exfalso. apply (Hout num eq_refl). split.
  - apply Qle_bool_iff. exact Hlo.
  - apply Qnot_le_lt. intros Hle. apply Qle_bool_iff in Hle. congruence.
Qed.

Lemma on_answer_out_of_range_changes_nothing_witness :
  on_answer (demo_host tagged) rps demo_game "4" demo_world
  = Some ((demo_game, true), demo_world,
          ("Invalid move. Please try again." ++ LF)
          :: ("HMAC: " ++ tagged (Game.hmacKey demo_game) "rock")
          :: menu_lines (Game.moves demo_game)).
Proof.
  apply (on_answer_out_of_range_changes_nothing
           (demo_host tagged) rps demo_game "4" "rock" demo_world).
  - discriminate.
  - discriminate.
  - reflexivity.
  - intros num Hnum. injection Hnum as <-.
    intros [_ Hlt]. vm_compute in Hlt. discriminate.
Defined.

(** X14. The numbers of the menu select the moves: an answer other than
    [0] and [?] whose number is [i + 1], for a position [i] of the move
    list, is handed to [play] as the move at position [i], and nothing
    else is done with it. *)
Theorem on_answer_menu_number_plays_that_move
    (H : Host) (mvs : list string) (g : Game.t) (answer : string)
    (num : Q) (i : nat) (m : string) (w : World) :
  answer <> "0" -> answer <> "?" ->
  js_Number H answer = Some num ->
  (num - 1 == inject_Z (Z.of_nat i))%Q ->
  nth_error mvs i = Some m ->
  on_answer H mvs g answer w = loop_plays H g (Some m) w.
Proof.
  intros H0 Hq Hnum Hidx Hm.
  pose proof (nth_error_bound mvs i m Hm) as Hi.
  rewrite (on_answer_number H mvs g answer H0 Hq), Hnum.
  assert (Hlo : Qle_bool 0 (num - 1) = true).
  { apply Qle_bool_iff. rewrite Hidx.
    change 0%Q with (inject_Z 0). rewrite <- Zle_Qle. lia. }
  assert (Hhi : Qle_bool (inject_Z (JsArray.length mvs)) (num - 1) = false).
  { destruct (Qle_bool (inject_Z (JsArray.length mvs)) (num - 1)) eqn:E;
      [| reflexivity].
    apply Qle_bool_iff in E. rewrite Hidx in E.
    rewrite <- Zle_Qle in E. lia. }
  rewrite Hlo, Hhi. cbn [andb negb].
  assert (Hfloor : Qfloor (num - 1) = Z.of_nat i)
    by (rewrite Hidx; apply Qfloor_Z).
  unfold JsArray.get_num. rewrite Hfloor.
  rewrite (proj2 (Qeq_bool_iff _ _) Hidx).
  unfold JsArray.get.
  destruct (Z.ltb_spec (Z.of_nat i) 0) as [Hneg | _]; [lia |].
  rewrite Nat2Z.id, Hm. reflexivity.
Qed.

Lemma on_answer_menu_number_plays_that_move_witness :
  on_answer (demo_host tagged) rps demo_game "3" demo_world
  = loop_plays (demo_host tagged) demo_game (Some "scissors") demo_world.
Proof.
  apply (on_answer_menu_number_plays_that_move
           (demo_host tagged) rps demo_game "3" (3 # 1) 2 "scissors"
           demo_world).
  - discriminate.
  - discriminate.
  - reflexivity.
  - reflexivity.
  - reflexivity.
Defined.

(** X15. The range test of the prompt loop lets fractions through: an
    answer other than [0] and [?] for which [Number(answer) - 1] is at
    least 0, below the number of moves and not an integer reaches [play]
    with [undefined]. *)
Theorem on_answer_fraction_reaches_play
    (H : Host) (mvs : list string) (g : Game.t) (answer : string)
    (num : Q) (w : World) :
  answer <> "0" -> answer <> "?" ->
  js_Number H answer = Some num ->
  (0 <= num - 1)%Q -> (num - 1 < inject_Z (JsArray.length mvs))%Q ->
  ~ (num - 1 == inject_Z (Qfloor (num - 1)))%Q ->
  on_answer H mvs g answer w = loop_plays H g None w.
Proof.
  intros H0 Hq Hnum Hlo Hhi Hfrac.
  rewrite (on_answer_number H mvs g answer H0 Hq), Hnum.
  rewrite (proj2 (Qle_bool_iff _ _) Hlo).
  assert (Hhi' : Qle_bool (inject_Z (JsArray.length mvs)) (num - 1) = false).
  { destruct (Qle_bool (inject_Z (JsArray.length mvs)) (num - 1)) eqn:E;
      [| reflexivity].
    apply Qle_bool_iff in E. exfalso. exact (Qlt_not_le _ _ Hhi E). }
  rewrite Hhi'. cbn [andb negb].
  unfold JsArray.get_num.
  destruct (Qeq_bool (num - 1) (inject_Z (Qfloor (num - 1)))) eqn:E;
    [| reflexivity].
  apply Qeq_bool_iff in E. contradiction.
Qed.

Lemma on_answer_fraction_reaches_play_witness :
  on_answer (demo_host tagged) rps demo_game "2.5" demo_world
  = loop_plays (demo_host tagged) demo_game None demo_world.
Proof.
  apply (on_answer_fraction_reaches_play
           (demo_host tagged) rps demo_game "2.5" (25 # 10) demo_world).
  - discriminate.
  - discriminate.
  - reflexivity.
  - vm_compute. discriminate.
  - vm_compute. reflexivity.
  - vm_compute. discriminate.
Defined.

Lemma showMenu_world (H : Host) (g : Game.t) (w w' : World)
    (out : list string) :
  Game.showMenu H g w = Some (tt, w', out) -> w' = w.
Proof.
  destruct (Game.computerMove g) as [c |] eqn:Hc.
  - rewrite (showMenu_lines H g c w Hc). intros Heq. injection Heq as <- _.
    reflexivity.
  - unfold Game.showMenu, Game.generateHmac, HmacGenerator.generateHmac.
    rewrite Hc. discriminate.
Qed.

Lemma printHelp_returns (g : Game.t) (w : World) :
  exists lines, Game.printHelp g w = Some (tt, w, lines).
Proof.
  destruct (generateHelpTable_shape (Game.moves g) (Game.moves g))
    as [Hne Hrect].
  destruct (printTable_rectangular _ w Hne Hrect)
    as (ms & lines & _ & Hrun & _).
  unfold Game.printHelp, bind, console_log. cbv beta iota.
  rewrite Hrun. eexists. reflexivity.
Qed.

Lemma play_returns (H : Host) (g : Game.t) (u : option string) (w : World) :
  random_in_range H -> 0 < JsArray.length (Game.moves g) ->
  exists c out,
    In c (Game.moves g) /\
    Game.play H g u w = Some (with_move g c, after_random w, out).
Proof.
  intros Hr Hn.
  destruct (randomMove_member H (Game.moves g) w Hr Hn) as (c & Hin & Hdraw).
  exists c. destruct (Game.isMoveValid g u) eqn:Hval.
  - destruct u as [um |]; [| discriminate].
    eexists. split; [exact Hin |].
    apply (play_resolved H g um c w _ Hdraw Hval).
  - eexists. split; [exact Hin |].
    apply (play_rejected H g u c w _ Hdraw Hval).
Qed.

(** One answer keeps the moves and the key, draws no key and at most one
    random number. *)
Lemma on_answer_keeps (H : Host) (mvs : list string) (g : Game.t)
    (answer : string) (w : World)
    (g' : Game.t) (b : bool) (w' : World) (out : list string) :
  on_answer H mvs g answer w = Some ((g', b), w', out) ->
  Game.moves g' = Game.moves g /\
  Game.hmacKey g' = Game.hmacKey g /\
  key_calls w' = key_calls w /\
  (random_calls w <= random_calls w' <= S (random_calls w))%nat.
Proof.
  assert (Hrejects :
            loop_rejects H g w = Some ((g', b), w', out) ->
            Game.moves g' = Game.moves g /\
            Game.hmacKey g' = Game.hmacKey g /\
            key_calls w' = key_calls w /\
            (random_calls w <= random_calls w' <= S (random_calls w))%nat).
  { unfold loop_rejects, bind, console_log, ret. cbv beta iota.
    destruct (Game.showMenu H g w) as [[[[] w1] o1] |] eqn:Hs;
      [| discriminate].
    apply showMenu_world in Hs. subst w1.
    intros Heq. injection Heq as <- _ <- _. repeat split; lia. }
  assert (Hplays :
            forall u, loop_plays H g u w = Some ((g', b), w', out) ->
            Game.moves g' = Game.moves g /\
            Game.hmacKey g' = Game.hmacKey g /\
            key_calls w' = key_calls w /\
            (random_calls w <= random_calls w' <= S (random_calls w))%nat).
  { intros u. unfold loop_plays.
    destruct (Game.play H g u w) as [[[g1 w1] o1] |] eqn:Hp.
    - rewrite (bind_step _ _ w _ _ _ Hp). unfold ret.
      intros Heq. injection Heq as <- _ <- _.
      destruct (play_outcome H g u w g1 w1 o1 Hp) as (c & _ & -> & ->).
      cbn. repeat split; lia.
    - unfold bind. rewrite Hp. discriminate. }
  destruct (String.eqb_spec answer "0") as [E0 | H0].
  { subst answer. cbn. intros Heq. injection Heq as <- _ <- _.
    repeat split; lia. }
  destruct (String.eqb_spec answer "?") as [Eq | Hq].
  { subst answer. unfold on_answer. cbn [String.eqb Ascii.eqb Bool.eqb].
    destruct (printHelp_returns g w) as [lines Hph].
    rewrite (bind_step _ _ w _ _ _ Hph). unfold ret.
    intros Heq. injection Heq as <- _ <- _. repeat split; lia. }
  rewrite (on_answer_number H mvs g answer H0 Hq).
  destruct (js_Number H answer) as [num |]; [| exact Hrejects].
  destruct (_ && _); [apply Hplays | exact Hrejects].
Qed.

(** X16. Over a whole session of the prompt loop, whatever is typed: the
    game keeps its moves and its key, no key is drawn, and at most one
    random number is drawn per answer. *)
Theorem getUserMove_keeps_key_and_moves
    (H : Host) (mvs : list string) (answers : list string) :
  forall (g : Game.t) (w : World)
         (g' : Game.t) (w' : World) (out : list string),
    getUserMove H mvs g answers w = Some (g', w', out) ->
    Game.moves g' = Game.moves g /\
    Game.hmacKey g' = Game.hmacKey g /\
    key_calls w' = key_calls w /\
    (random_calls w <= random_calls w'
     <= random_calls w + List.length answers)%nat.
Proof.
  induction answers as [| answer rest IH]; intros g w g' w' out Hrun.
  - cbn in Hrun. injection Hrun as <- <- _. repeat split; lia.
  - cbn [getUserMove] in Hrun.
    destruct (on_answer H mvs g answer w) as [[[[g1 b] w1] o1] |] eqn:Hans.
    + rewrite (bind_step _ _ w _ _ _ Hans) in Hrun. cbn [fst snd] in Hrun.
      destruct (on_answer_keeps H mvs g answer w g1 b w1 o1 Hans)
        as (Hm1 & Hk1 & Hc1 & Hr1).
      destruct b.
      * destruct (getUserMove H mvs g1 rest w1) as [[[g2 w2] o2] |] eqn:Hrest;
          [| discriminate].
        injection Hrun as <- <- _.
        destruct (IH g1 w1 g2 w2 o2 Hrest) as (Hm2 & Hk2 & Hc2 & Hr2).
        cbn [List.length]. repeat split; try congruence; lia.
      * cbn in Hrun. injection Hrun as <- <- _.
        cbn [List.length]. repeat split; try assumption; lia.
    + unfold bind in Hrun. rewrite Hans in Hrun. discriminate.
Qed.

Lemma getUserMove_keeps_key_and_moves_witness :
  Game.moves (with_move demo_game "paper") = Game.moves demo_game /\
  Game.hmacKey (with_move demo_game "paper") = Game.hmacKey demo_game /\
  key_calls {| random_calls := 3; key_calls := 1 |} = key_calls demo_world /\
  (random_calls demo_world
   <= random_calls {| random_calls := 3; key_calls := 1 |}
   <= random_calls demo_world
      + List.length ["1"; "9"; "?"; "2.5"; "0"; "1"])%nat.
Proof.
  apply (getUserMove_keeps_key_and_moves
           (demo_host tagged) rps ["1"; "9"; "?"; "2.5"; "0"; "1"]
           demo_game demo_world
           (with_move demo_game "paper")
           {| random_calls := 3; key_calls := 1 |}
           (snd (match getUserMove (demo_host tagged) rps demo_game
                         ["1"; "9"; "?"; "2.5"; "0"; "1"] demo_world with
                 | Some r => r
                 | None => (demo_game, demo_world, [])
                 end))).
  vm_compute. reflexivity.
Defined.

(** One answer never makes the loop throw when the computer's move is a
    member of the moves, and leaves it one. *)
Lemma on_answer_returns (H : Host) (mvs : list string) (g : Game.t)
    (answer : string) (w : World) :
  random_in_range H -> move_chosen g ->
  exists g' b w' out,
    on_answer H mvs g answer w = Some ((g', b), w', out) /\ move_chosen g'.
Proof.
  intros Hr Hg. pose proof Hg as (c & Hc & Hin).
  assert (Hrejects : exists g' b w' out,
             loop_rejects H g w = Some ((g', b), w', out) /\ move_chosen g').
  { exists g, true, w. eexists. split; [| exact Hg].
    apply (loop_rejects_lines H g c w Hc). }
  assert (Hplays : forall u, exists g' b w' out,
             loop_plays H g u w = Some ((g', b), w', out) /\ move_chosen g').
  { intros u.
    destruct (play_returns H g u w Hr (nonempty_length _ c Hin))
      as (c' & o & Hin' & Hp).
    exists (with_move g c'), true, (after_random w). eexists. split.
    - unfold loop_plays. rewrite (bind_step _ _ w _ _ _ Hp). reflexivity.
    - exists c'. split; [reflexivity | exact Hin']. }
  destruct (String.eqb_spec answer "0") as [E0 | H0].
  { subst answer. exists g, false, w, []. split; [reflexivity | exact Hg]. }
  destruct (String.eqb_spec answer "?") as [Eq | Hq].
  { subst answer. destruct (printHelp_returns g w) as [lines Hph].
    exists g, true, w. eexists. split; [| exact Hg].
    unfold on_answer. cbn [String.eqb Ascii.eqb Bool.eqb].
    rewrite (bind_step _ _ w _ _ _ Hph). reflexivity. }
  rewrite (on_answer_number H mvs g answer H0 Hq).
  destruct (js_Number H answer) as [num |]; [| exact Hrejects].
  destruct (_ && _); [apply Hplays | exact Hrejects].
Qed.

(** X17. The prompt loop never throws, whatever is typed: with
    [Math.random] in its range and a game whose computer's move is one of
    its moves, [getUserMove] completes on every list of answers, and the
    computer's move of the game it ends with is again one of the moves.
    (The help table printed on [?] is rectangular and its cells fit their
    columns, so [padCell] never asks for a negative padding there.) *)
Theorem getUserMove_never_throws
    (H : Host) (mvs : list string) (answers : list string) :
  random_in_range H ->
  forall (g : Game.t) (w : World),
    move_chosen g ->
    exists g' w' out,
      getUserMove H mvs g answers w = Some (g', w', out) /\ move_chosen g'.
Proof.
  intros Hr.
  induction answers as [| answer rest IH]; intros g w Hg.
  - exists g, w, []. split; [reflexivity | exact Hg].
  - destruct (on_answer_returns H mvs g answer w Hr Hg)
      as (g1 & b & w1 & o1 & Hans & Hg1).
    cbn [getUserMove]. rewrite (bind_step _ _ w _ _ _ Hans).
    cbn [fst snd]. destruct b.
    + destruct (IH g1 w1 Hg1) as (g2 & w2 & o2 & Hrest & Hg2).
      rewrite Hrest. exists g2, w2. eexists.
      split; [reflexivity | exact Hg2].
    + exists g1, w1. eexists. split; [reflexivity | exact Hg1].
Qed.

Lemma getUserMove_never_throws_witness :
  exists g' w' out,
    getUserMove (demo_host tagged) rps demo_game
                ["x"; "2"; "-1"; "?"; "1.5"] demo_world
    = Some (g', w', out) /\ move_chosen g'.
Proof.
  apply (getUserMove_never_throws (demo_host tagged) rps
           ["x"; "2"; "-1"; "?"; "1.5"]
           (demo_random_in_range tagged) demo_game demo_world).
  exists "rock". split; [reflexivity | simpl; tauto].
Defined.

(** X18. Nothing typed after an answer [0] is processed: a session in
    which [0] is typed is the same, in its result, its use of the random
    sources and its output, as the session that ends with that [0]. *)
Theorem getUserMove_stops_at_zero
    (H : Host) (mvs : list string) (before after : list string) :
  forall (g : Game.t) (w : World),
    getUserMove H mvs g (before ++ "0" :: after) w
    = getUserMove H mvs g (before ++ ["0"]) w.
Proof.
  induction before as [| answer rest IH]; intros g w.
  - reflexivity.
  - cbn [app getUserMove]. unfold bind.
    destruct (on_answer H mvs g answer w) as [[[[g1 b] w1] o1] |];
      [| reflexivity].
    cbn [fst snd]. destruct b; [| reflexivity].
    rewrite IH. reflexivity.
Qed.


(** ** The whole script *)

(** A session started on a game whose computer's move is a member
    completes, on the same moves and key and without drawing a key. *)
Lemma getUserMove_session
    (H : Host) (mvs : list string) (answers : list string) :
  random_in_range H ->
  forall (g : Game.t) (w : World),
    move_chosen g ->
    exists g' w' out,
      getUserMove H mvs g answers w = Some (g', w', out) /\
      move_chosen g' /\
      Game.moves g' = Game.moves g /\
      Game.hmacKey g' = Game.hmacKey g /\
      key_calls w' = key_calls w.
Proof.
  intros Hr.
  induction answers as [| answer rest IH]; intros g w Hg.
  - exists g, w, []. repeat split; try reflexivity. exact Hg.
  - destruct (on_answer_returns H mvs g answer w Hr Hg)
      as (g1 & b & w1 & o1 & Hans & Hg1).
    destruct (on_answer_keeps H mvs g answer w g1 b w1 o1 Hans)
      as (Hm1 & Hk1 & Hc1 & _).
    cbn [getUserMove]. rewrite (bind_step _ _ w _ _ _ Hans).
    cbn [fst snd]. destruct b.
    + destruct (IH g1 w1 Hg1) as (g2 & w2 & o2 & Hrest & Hg2 & Hm2 & Hk2 & Hc2).
      rewrite Hrest. exists g2, w2. eexists.
      split; [reflexivity |]. repeat split; try assumption; congruence.
    + exists g1, w1. eexists.
      split; [reflexivity |]. repeat split; assumption.
Qed.

Lemma main_starts (H : Host) (argv : list string) (w : World) :
  random_in_range H -> valid_moveset (skipn 2 argv) ->
  exists c,
    In c (skipn 2 argv) /\
    main H argv w
    = Some (Some {| Game.moves := skipn 2 argv;
                    Game.hmacKey := randomBytes_hex H (key_calls w);
                    Game.computerMove := Some c |},
            {| random_calls := S (random_calls w);
               key_calls := S (key_calls w) |},
            ("HMAC: "
             ++ hmac_sha256_hex H (randomBytes_hex H (key_calls w)) c)
            :: menu_lines (skipn 2 argv)).
Proof.
  intros Hr Hv. unfold main. cbv zeta.
  set (mvs := skipn 2 argv) in *.
  rewrite (proj2 (invalid_moves_spec mvs) Hv).
  destruct (half_bounds mvs Hv) as (Hn & _).
  unfold Game.constructor, KeyGenerator.generateKey.
  unfold bind at 1 2. cbv beta iota.
  set (w1 := {| random_calls := random_calls w;
                key_calls := S (key_calls w) |}).
  destruct (randomMove_member H mvs w1 Hr Hn) as (c & Hin & Hdraw).
  exists c. split; [exact Hin |].
  rewrite (bind_step _ _ w1 _ _ _ Hdraw).
  unfold bind, ret. cbv beta iota.
  rewrite (showMenu_lines H
             {| Game.moves := mvs;
                Game.hmacKey := randomBytes_hex H (key_calls w);
                Game.computerMove := Some c |} c (after_random w1) eq_refl).
  rewrite !app_nil_r. reflexivity.
Qed.

(** X19. A whole run of the script.  On a command line whose moves fail
    the test of the entry point, nothing that is typed is read: the run
    is the two lines of the error, with no game and no random source
    touched.  On a valid MoveSet, and with [Math.random] in its range,
    the run completes whatever is typed; the game it ends with has the
    moves of the command line and the one key drawn at the start, its
    computer's move is one of the moves, and no second key was drawn. *)
Theorem script_run (H : Host) (argv answers : list string) (w : World) :
  (~ valid_moveset (skipn 2 argv) ->
   script H argv answers w
   = Some (None, w,
           [ "Invalid moves. Please provide an odd number of unique moves.";
             "Example: node game.js rock paper scissors" ]))
  /\
  (random_in_range H -> valid_moveset (skipn 2 argv) ->
   exists g w' out,
     script H argv answers w = Some (Some g, w', out) /\
     Game.moves g = skipn 2 argv /\
     Game.hmacKey g = randomBytes_hex H (key_calls w) /\
     key_calls w' = S (key_calls w) /\
     move_chosen g).
Proof.
  split.
  - intros Hbad. unfold script, main. cbv zeta.
    destruct (invalid_moves (skipn 2 argv)) eqn:Hinv.
    + reflexivity.
    + exfalso. apply Hbad. apply invalid_moves_spec. exact Hinv.
  - intros Hr Hv.
    destruct (main_starts H argv w Hr Hv) as (c & Hin & Hmain).
    set (g0 := {| Game.moves := skipn 2 argv;
                  Game.hmacKey := randomBytes_hex H (key_calls w);
                  Game.computerMove := Some c |}) in *.
    set (w0 := {| random_calls := S (random_calls w);
                  key_calls := S (key_calls w) |}) in *.
    assert (Hg0 : move_chosen g0) by (exists c; split; [reflexivity | exact Hin]).
    destruct (getUserMove_session H (skipn 2 argv) answers Hr g0 w0 Hg0)
      as (g & w' & out & Hrun & Hg & Hm & Hk & Hc).
    exists g, w'. eexists. split.
    + unfold script. rewrite (bind_step _ _ w _ _ _ Hmain).
      rewrite (bind_step _ _ w0 _ _ _ Hrun). reflexivity.
    + repeat split; try assumption.
Qed.

Lemma script_run_witness :
  script (demo_host tagged) ["node"; "game.js"; "rock"; "rock"; "paper"]
         ["1"; "2"] world0
  = Some (None, world0,
          [ "Invalid moves. Please provide an odd number of unique moves.";
            "Example: node game.js rock paper scissors" ])
  /\
  exists g w' out,
    script (demo_host tagged) node_rps ["2"; "?"; "abc"; "0"] world0
    = Some (Some g, w', out) /\
    Game.moves g = skipn 2 node_rps /\
    Game.hmacKey g = randomBytes_hex (demo_host tagged) (key_calls world0) /\
    key_calls w' = S (key_calls world0) /\
    move_chosen g.
Proof.
  split.
  - apply (proj1 (script_run (demo_host tagged)
                    ["node"; "game.js"; "rock"; "rock"; "paper"]
                    ["1"; "2"] world0)).
    intros (Hnd & _). inversion Hnd as [| ? ? Hnotin _]; subst.
    apply Hnotin. left. reflexivity.
  - apply (proj2 (script_run (demo_host tagged) node_rps
                    ["2"; "?"; "abc"; "0"] world0)).
    + apply demo_random_in_range.
    + exact rps_valid.
Defined.


(** ** The key of a game *)

(** C5, amended.  The key is generated once per [Game]: the constructor
    makes exactly one call of [generateKey] and stores its result as
    [hmacKey]; [showMenu] and [printHelp] leave the random sources
    untouched; a call of [play] that returns draws no key and leaves
    [hmacKey] as it was, and when the submitted move is a member it
    discloses that same key. *)
Theorem C5_key_kept_across_rounds (H : Host) :
  (forall (mvs : list string) (w : World),
      exists cm,
        Game.constructor H mvs w
        = Some ({| Game.moves := mvs;
                   Game.hmacKey := randomBytes_hex H (key_calls w);
                   Game.computerMove := cm |},
                {| random_calls := S (random_calls w);
                   key_calls := S (key_calls w) |},
                []))
  /\
  (forall (g : Game.t) (w w' : World) (out : list string),
      (Game.showMenu H g w = Some (tt, w', out) -> w' = w) /\
      (Game.printHelp g w = Some (tt, w', out) -> w' = w))
  /\
  (forall (g : Game.t) (u : option string) (w : World)
          (g' : Game.t) (w' : World) (out : list string),
      Game.play H g u w = Some (g', w', out) ->
      Game.hmacKey g' = Game.hmacKey g /\
      key_calls w' = key_calls w /\
      (Game.isMoveValid g u = true ->
       In ("HMAC key: " ++ Game.hmacKey g ++ LF) out)).
Proof.
  split; [| split].
  - intros mvs w. eexists. reflexivity.
  - intros g w w' out. split.
    + apply showMenu_world.
    + destruct (printHelp_returns g w) as [lines Hph]. rewrite Hph.
      intros Heq. injection Heq as <- _. reflexivity.
  - intros g u w g' w' out Hplay.
    destruct (play_outcome H g u w g' w' out Hplay) as (c & Hdraw & -> & ->).
    split; [reflexivity |]. split; [reflexivity |].
    intros Hval. destruct u as [um |]; [| discriminate].
    rewrite (play_resolved H g um c w _ Hdraw Hval) in Hplay.
    injection Hplay as <-. do 4 right. left. reflexivity.
Qed.

Lemma C5_key_kept_across_rounds_witness :
  (exists cm,
     Game.constructor (demo_host tagged) rps world0
     = Some ({| Game.moves := rps;
                Game.hmacKey := demo_key 0;
                Game.computerMove := cm |},
             {| random_calls := 1; key_calls := 1 |}, []))
  /\
  (Game.hmacKey (with_move demo_game "paper") = Game.hmacKey demo_game /\
   key_calls (after_random demo_world) = key_calls demo_world /\
   (Game.isMoveValid demo_game (Some "rock") = true ->
    In ("HMAC key: " ++ Game.hmacKey demo_game ++ LF)
       (("HMAC: " ++ tagged (demo_key 0) "paper")
        :: "Your move: rock"
        :: "Computer move: paper"
        :: "Computer wins!"
        :: ("HMAC key: " ++ demo_key 0 ++ LF)
        :: ("HMAC: " ++ tagged (demo_key 0) "paper")
        :: menu_lines rps))).
Proof.
  split.
  - apply (proj1 (C5_key_kept_across_rounds (demo_host tagged)) rps world0).
  - apply (proj2 (proj2 (C5_key_kept_across_rounds (demo_host tagged)))
             demo_game (Some "rock") demo_world).
    vm_compute. reflexivity.
Defined.
